(** * simstore: a store of 64-bit simhash signatures, Hamming distance 3

    A shallow embedding of the Go package [simstore] (tables of permuted
    signatures in the style of Manku, Jain and Sarma) and the properties
    of its [Add], [Finish], [Find], [table.find] and [distance].

    Go's [uint64] is modelled as [Z] with the wrap-around modulo [2^64]
    written out at every operation that can overflow; the array
    [tables [16]table] is a list of 16 tables read and updated by index;
    the map used to remove duplicates in [Find] is a [gset Z]. *)

From Stdlib Require Import ZArith Lia Bool.
From Stdlib Require String.
From stdpp Require Import base list gmap sorting.

Local Open Scope Z_scope.

(** ** Unsigned 64-bit arithmetic *)

Module U64.

Definition modulus : Z := 2 ^ 64.

Definition wrap (z : Z) : Z := z mod modulus.

(** The values a Go [uint64] can hold. *)
Definition is_u64 (z : Z) : Prop := 0 <= z < modulus.

Definition add (a b : Z) : Z := wrap (a + b).
Definition sub (a b : Z) : Z := wrap (a - b).
Definition mul (a b : Z) : Z := wrap (a * b).
Definition shl (a k : Z) : Z := wrap (Z.shiftl a k).
Definition shr (a k : Z) : Z := Z.shiftr a k.

End U64.

(** ** [distance]: the bit population count of [v1 ^ v2] *)

Definition distance (v1 v2 : Z) : Z :=
  let x := Z.lxor v1 v2 in
  let x := U64.sub x (Z.land (U64.shr x 1) 0x5555555555555555) in
  let x := U64.add (Z.land (U64.shr x 2) 0x3333333333333333)
                   (Z.land x 0x3333333333333333) in
  let x := U64.add x (U64.shr x 4) in
  let x := Z.land x 0x0f0f0f0f0f0f0f0f in
  let x := U64.mul x 0x0101010101010101 in
  U64.shr x 56.

(** ** Tables of permuted signatures *)

Record entry : Type := mk_entry { hash : Z; docid : Z }.

(** [type table []entry] *)
Abbreviation table := (list entry).

#[global] Instance entry_inhabited : Inhabited entry := populate (mk_entry 0 0).

#[global] Instance entry_eq_dec : EqDecision entry.
Proof. solve_decision. Defined.

(** [sort.Interface] on a table. [Swap] and [Less] index the slice; Go panics
    on an index outside it, which is [None] here. *)
Definition Len (t : table) : nat := length t.

Definition Swap (t : table) (i j : nat) : option table :=
  match t !! i, t !! j with
  | Some ei, Some ej => Some (<[j := ei]> (<[i := ej]> t))
  | _, _ => None
  end.

Definition Less (t : table) (i j : nat) : option bool :=
  match t !! i, t !! j with
  | Some ei, Some ej => Some (hash ei <? hash ej)
  | _, _ => None
  end.

(** The constant [mask] of [table.find]: the top 28 bits. *)
Definition mask : Z := 0xfffffff000000000.

(** Go's [sort.Search(n, f)]: binary search for the least index in [0, n) at
    which [f] holds, [n] when there is none. The loop runs while [i < j]; each
    turn shrinks [j - i], so [n] turns are enough and [fuel] is set to [n]. *)
Fixpoint Search_loop (fuel : nat) (f : nat -> bool) (i j : nat) : nat :=
  match fuel with
  | O => i
  | S fuel' =>
      if (i <? j)%nat then
        let h := ((i + j) / 2)%nat in
        if negb (f h) then Search_loop fuel' f (h + 1)%nat j
        else Search_loop fuel' f i h
      else i
  end.

Definition Search (n : nat) (f : nat -> bool) : nat := Search_loop n f 0%nat n.

(** The loop of [table.find] from index [i] on, as a recursion over the
    entries [t[i:]]: it stops at the first entry whose masked hash is not
    [prefix], and appends the docid of every entry on the way whose distance
    to [sig] is at most 3. *)
Fixpoint find_scan (sig prefix : Z) (rest : list entry) (ids : list Z) : list Z :=
  match rest with
  | [] => ids
  | e :: rest' =>
      if Z.land (hash e) mask =? prefix then
        find_scan sig prefix rest'
          (if distance (hash e) sig <=? 3 then ids ++ [docid e] else ids)
      else ids
  end.

(** [t[i].hash >= prefix], the closure handed to [sort.Search]; the search
    only calls it at indices below [len(t)]. *)
Definition hash_ge (t : table) (prefix : Z) (i : nat) : bool :=
  prefix <=? hash (t !!! i).

Definition find (t : table) (sig : Z) : list Z :=
  let prefix := Z.land sig mask in
  let i := Search (length t) (hash_ge t prefix) in
  find_scan sig prefix (drop i t) [].

(** *** [table.find] in the words of its description *)

(** The longest prefix of [l] whose elements all satisfy [P]. *)
Fixpoint take_while {A : Type} (P : A -> Prop) `{forall x, Decision (P x)}
  (l : list A) : list A :=
  match l with
  | [] => []
  | x :: l' => if decide (P x) then x :: take_while P l' else []
  end.

(** The index of the first element of [l] that satisfies [P], by a scan from
    the left; [length l] when there is none. *)
Fixpoint first_index {A : Type} (P : A -> Prop) `{forall x, Decision (P x)}
  (l : list A) : nat :=
  match l with
  | [] => O
  | x :: l' => if decide (P x) then O else S (first_index P l')
  end.

(** With [P = q & M]: from the first entry with [h >= P], the entries while
    [h & M = P]; of those, the docids of the ones within distance 3 of [q]. *)
Definition find_spec (t : table) (q : Z) : list Z :=
  let P := Z.land q mask in
  let i := first_index (fun e => P <= hash e) t in
  let candidates := take_while (fun e => Z.land (hash e) mask = P) (drop i t) in
  docid <$> filter (fun e => distance (hash e) q <= 3) candidates.

(** [ok] holds of the entry [e] exactly when its hash is among the [W] hashes
    from [P] on. *)
Definition in_window (P W : Z) (ok : entry -> Prop) (e : entry) : Prop :=
  ok e <-> P <= hash e < P + W.

(** ** The store *)

Record Store : Type := mk_Store { tables : list table }.

(** The zero value of [Store]: sixteen nil tables. *)
Definition new_Store : Store := mk_Store (replicate 16 []).

(** The array type [[16]table] fixes the number of tables. *)
Definition wf_Store (s : Store) : Prop := length (tables s) = 16%nat.

(** [sig = (sig << 16) | (sig >> (64 - 16))] *)
Definition rotl16 (sig : Z) : Z :=
  Z.lor (U64.shl sig 16) (U64.shr sig (64 - 16)).

(** The three block swaps of [Add] and [Find]; in Go [&], [<<] and [>>] bind
    equally and associate to the left, so [sig & m >> k] is [(sig & m) >> k]. *)
Definition swap_12_24 (sig : Z) : Z :=
  Z.lor (Z.lor (Z.land sig 0xffff000000ffffff)
               (U64.shr (Z.land sig 0x0000fff000000000) 12))
        (U64.shl (Z.land sig 0x0000000fff000000) 12).

Definition swap_24_24 (sig : Z) : Z :=
  Z.lor (Z.lor (Z.land sig 0xffff000fff000fff)
               (U64.shr (Z.land sig 0x0000fff000000000) 24))
        (U64.shl (Z.land sig 0x0000000000fff000) 24).

Definition swap_36_36 (sig : Z) : Z :=
  Z.lor (Z.lor (Z.land sig 0xffff000ffffff000)
               (U64.shr (Z.land sig 0x0000fff000000000) 36))
        (U64.shl (Z.land sig 0x0000000000000fff) 36).

(** [s.tables[t] = append(s.tables[t], e)] *)
Definition append_at (t : nat) (e : entry) (tabs : list table) : list table :=
  <[t := (tabs !!! t) ++ [e]]> tabs.

(** The loop of [Add]: [n] turns are left, [t] is the running table index and
    [sig] the signature rotated so far. *)
Fixpoint Add_loop (n : nat) (t : nat) (sig id : Z) (tabs : list table) : list table :=
  match n with
  | O => tabs
  | S n' =>
      let p := sig in
      let tabs := append_at t (mk_entry p id) tabs in
      let t := S t in
      let p := swap_12_24 sig in
      let tabs := append_at t (mk_entry p id) tabs in
      let t := S t in
      let p := swap_24_24 sig in
      let tabs := append_at t (mk_entry p id) tabs in
      let t := S t in
      let p := swap_36_36 sig in
      let tabs := append_at t (mk_entry p id) tabs in
      let t := S t in
      Add_loop n' t (rotl16 sig) id tabs
  end.

Definition Add (s : Store) (sig id : Z) : Store :=
  mk_Store (Add_loop 4 0 sig id (tables s)).

(** [Finish] sorts every table with [sort.Sort], one goroutine per table, and
    waits for all of them. The goroutines write disjoint tables, so the result
    is that of sorting the tables one after the other. [sort.Sort] is not
    stable and promises only a reordering in which no entry is [Less] than its
    predecessor: [sorted_of] is that contract, [Finishes] lifts it to the
    store, and [Finish] is one run of it (by merge sort). *)
Definition hash_le (e1 e2 : entry) : Prop := hash e1 <= hash e2.

#[global] Instance hash_le_dec : RelDecision hash_le.
Proof. intros e1 e2. unfold hash_le. apply _. Defined.

Definition sorted_of (t t' : table) : Prop := t' ≡ₚ t /\ Sorted hash_le t'.

Definition Finishes (s s' : Store) : Prop := Forall2 sorted_of (tables s) (tables s').

Definition Finish (s : Store) : Store := mk_Store (merge_sort hash_le <$> tables s).

(** The loop of [Find], collecting the ids of every table's [find]. *)
Fixpoint Find_loop (n : nat) (t : nat) (sig : Z) (tabs : list table) (ids : list Z) : list Z :=
  match n with
  | O => ids
  | S n' =>
      let p := sig in
      let ids := ids ++ find (tabs !!! t) p in
      let t := S t in
      let p := swap_12_24 sig in
      let ids := ids ++ find (tabs !!! t) p in
      let t := S t in
      let p := swap_24_24 sig in
      let ids := ids ++ find (tabs !!! t) p in
      let t := S t in
      let p := swap_36_36 sig in
      let ids := ids ++ find (tabs !!! t) p in
      let t := S t in
      Find_loop n' t (rotl16 sig) tabs ids
  end.

(** The ids before and after the removal of duplicates. The keys of the Go map
    [uniq] are the set [list_to_set ids]; Go ranges over a map in an order it
    does not fix, so [Find] is one of the lists [Find_returns] allows. *)
Definition Find_ids (s : Store) (sig : Z) : list Z := Find_loop 4 0 sig (tables s) [].

Definition Find_uniq (s : Store) (sig : Z) : gset Z := list_to_set (Find_ids s sig).

Definition Find (s : Store) (sig : Z) : list Z := elements (Find_uniq s sig).

Definition Find_returns (s : Store) (sig : Z) (ids : list Z) : Prop :=
  ids ≡ₚ elements (Find_uniq s sig).

(** A store as a caller builds it: [Add] for each pair, first to last. *)
Definition build (adds : list (Z * Z)) : Store :=
  foldl (fun s p => Add s p.1 p.2) new_Store adds.

(** How a call ends: it returns, or it panics. Neither [Add] nor [Find] has a
    panicking path: every table index is a constant below 16 and [find] reads
    [t[i]] only for [i < len(t)]. *)
Inductive outcome (A : Type) : Type :=
| Returns (a : A)
| Panics.
Arguments Returns {A} a.
Arguments Panics {A}.

Definition call_Add (s : Store) (sig id : Z) : outcome Store := Returns (Add s sig id).

Definition call_Find (s : Store) (sig : Z) : outcome (list Z) := Returns (Find s sig).

(** ** The permutation family in closed form *)

(** [ROTL64(x, k)] *)
Definition ROTL64 (x k : Z) : Z :=
  U64.wrap (Z.lor (Z.shiftl x k) (Z.shiftr x (64 - k))).

(** The 12-bit block of [x] at bit offset [lo]. *)
Definition block12 (lo x : Z) : Z := Z.land (Z.shiftr x lo) 0xfff.

(** Swap the 12-bit block at [36..48) with the one at [lo..lo+12): the bits
    outside the two ranges stay, each block is placed into the other's range. *)
Definition swap_blocks (lo x : Z) : Z :=
  Z.lor (Z.lor (Z.ldiff (Z.ldiff x (Z.shiftl 0xfff 36)) (Z.shiftl 0xfff lo))
               (Z.shiftl (block12 lo x) 36))
        (Z.shiftl (block12 36 x) lo).

(** Variants A, B, C and D, by number. *)
Definition variant (v : nat) (x : Z) : Z :=
  match v with
  | 0%nat => x
  | 1%nat => swap_blocks 24 x
  | 2%nat => swap_blocks 12 x
  | _ => swap_blocks 0 x
  end.

(** [pi_t] for [t = 4 * i + v]: variant [v] of the rotation by [16 * i]. *)
Definition perm (t : nat) (x : Z) : Z :=
  variant (t mod 4) (ROTL64 x (16 * Z.of_nat (t / 4))).

Definition ROTR64 (x k : Z) : Z :=
  U64.wrap (Z.lor (Z.shiftr x k) (Z.shiftl x (64 - k))).

(** Each variant undoes itself, and a right rotation undoes the left one. *)
Definition perm_inv (t : nat) (x : Z) : Z :=
  ROTR64 (variant (t mod 4) x) (16 * Z.of_nat (t / 4)).

(** The hash that the code computes for table [t]: [t / 4] rotations by 16,
    then the swap of the position [t mod 4] in the loop body. *)
Definition code_variant (v : nat) (sig : Z) : Z :=
  match v with
  | 0%nat => sig
  | 1%nat => swap_12_24 sig
  | 2%nat => swap_24_24 sig
  | _ => swap_36_36 sig
  end.

Definition code_perm (t : nat) (sig : Z) : Z :=
  code_variant (t mod 4) (Nat.iter (t / 4) rotl16 sig).

(** Where the bit at position [n] of a rotated, or block-swapped, word comes
    from. *)
Definition rot_index (n : Z) : Z := if n <? 16 then n + 48 else n - 16.

Definition swap_index (lo n : Z) : Z :=
  if (36 <=? n) && (n <? 48) then n - 36 + lo
  else if (lo <=? n) && (n <? lo + 12) then n - lo + 36
  else n.

(** The mask with [w] ones from bit [lo] up. *)
Definition bit_block (w lo : Z) : Z := Z.shiftl (Z.ones w) lo.

(** The source position of bit [n] under variant [v], and under the whole
    permutation of table [t]. *)
Definition variant_index (v : nat) (n : Z) : Z :=
  match v with
  | 0%nat => n
  | 1%nat => swap_index 24 n
  | 2%nat => swap_index 12 n
  | _ => swap_index 0 n
  end.

Definition perm_index (t : nat) (n : Z) : Z :=
  Nat.iter (t / 4) rot_index (variant_index (t mod 4) n).

(** ** Counting bits *)

(** The number of set bits among the [n] positions [lo, lo+1, ...] of [z]:
    what "population count" means, one bit at a time. *)
Fixpoint count_bits (n : nat) (lo : Z) (z : Z) : Z :=
  match n with
  | O => 0
  | S n' => Z.b2z (Z.testbit z lo) + count_bits n' (lo + 1) z
  end.

Definition popcount (z : Z) : Z := count_bits 64 0 z.

(** The number of bit positions below 64 at which [a] and [b] differ. *)
Definition differing_positions (a b : Z) : list Z :=
  filter (fun i => Z.testbit a i <> Z.testbit b i) (seqZ 0 64).

Definition hamming (a b : Z) : Z := Z.of_nat (length (differing_positions a b)).

(** A mask whose [n] fields of [w] bits each hold [d]. *)
Fixpoint rep (w d : Z) (n : nat) : Z :=
  match n with
  | O => 0
  | S n' => d + 2 ^ w * rep w d n'
  end.

(** The word whose [n] fields of [w] bits each hold the number of set bits of
    the same field of [x]: what the first three steps of [distance] compute,
    for [w] = 2, 4 and 8. *)
Fixpoint field_counts (w : nat) (n : nat) (x : Z) : Z :=
  match n with
  | O => 0
  | S n' => count_bits w 0 x + 2 ^ Z.of_nat w * field_counts w n' (x / 2 ^ Z.of_nat w)
  end.

(** The sum of the set bits of the [n] lowest fields of [w] bits. *)
Fixpoint field_total (w : nat) (n : nat) (x : Z) : Z :=
  match n with
  | O => 0
  | S n' => count_bits w 0 x + field_total w n' (x / 2 ^ Z.of_nat w)
  end.

(** ** Sorting through [Len], [Less] and [Swap] *)

(** No entry is [Less] than the one before it: the order that [sort.Sort]
    establishes through [Len], [Less] and [Swap]. *)
Definition ascending_by_Less (t : list entry) : Prop :=
  forall i, (0 < i < Len t)%nat -> Less t i (i - 1) = Some false.

(** A run of [Swap] calls, first to last; [None] when one of them panics. *)
Fixpoint Swaps (t : list entry) (calls : list (nat * nat)) : option (list entry) :=
  match calls with
  | [] => Some t
  | (i, j) :: calls' =>
      match Swap t i j with
      | Some t' => Swaps t' calls'
      | None => None
      end
  end.

(** ** Runs of calls on a store *)

(** The calls a caller can make on a store that change it. *)
Inductive op : Type :=
| OpAdd (sig id : Z)
| OpFinish.

(** The pairs added by a sequence of calls, in order. *)
Fixpoint adds_of (ops : list op) : list (Z * Z) :=
  match ops with
  | [] => []
  | OpAdd sig id :: ops' => (sig, id) :: adds_of ops'
  | OpFinish :: ops' => adds_of ops'
  end.

(** [runs_from s ops s']: the calls [ops], made in order on the store [s],
    can leave the store [s']. *)
Fixpoint runs_from (s : Store) (ops : list op) (s' : Store) : Prop :=
  match ops with
  | [] => s' = s
  | OpAdd sig id :: ops' => runs_from (Add s sig id) ops' s'
  | OpFinish :: ops' => exists s1, Finishes s s1 /\ runs_from s1 ops' s'
  end.

(** The entries that table [t] holds for the added pairs [adds]. *)
Definition table_of (t : nat) (adds : list (Z * Z)) : list entry :=
  (fun p => mk_entry (code_perm t p.1) p.2) <$> adds.

(** The store [s] holds the pairs [adds], in some order in each table. *)
Definition holds (adds : list (Z * Z)) (s : Store) : Prop :=
  wf_Store s /\ forall t, (t < 16)%nat -> tables s !!! t ≡ₚ table_of t adds.

(** ** The daemon [simd] *)

(** Go's [int] on a 64-bit platform. *)
Module Int.
Definition wrap (z : Z) : Z := (z + 2 ^ 63) mod 2 ^ 64 - 2 ^ 63.
Definition add (a b : Z) : Z := wrap (a + b).
End Int.

(** What one call of [r.Read(buf)] hands back: the bytes read, with no error,
    with [io.EOF], or with another error. *)
Inductive read_result (E : Type) : Type :=
| ReadOk (data : list Z)
| ReadEOF (data : list Z)
| ReadErr (data : list Z) (err : E).
Arguments ReadOk {E} data.
Arguments ReadEOF {E} data.
Arguments ReadErr {E} data err.

(** [bytes.Count(buf[:c], []byte{'\n'})]: the number of newline bytes. *)
Definition count_newlines (data : list Z) : Z :=
  Z.of_nat (length (filter (fun b => b = 10) data)).

(** The loop of [lineCounter] over the results of the successive reads. The
    loop ends at [io.EOF] or at an error; on reads that end in neither it
    would go on reading, which is [None]. *)
Fixpoint lineCounter_loop {E : Type} (reads : list (read_result E)) (count : Z)
  : option (Z * option E) :=
  match reads with
  | [] => None
  | ReadErr _ err :: _ => Some (count, Some err)
  | ReadOk data :: reads' => lineCounter_loop reads' (Int.add count (count_newlines data))
  | ReadEOF data :: _ => Some (Int.add count (count_newlines data), None)
  end.

(** [lineCounter]: [opened] is what [os.Open] gives, an error or a file whose
    reads are [reads]. *)
Definition lineCounter {E : Type} (opened : E + list (read_result E)) : option (Z * option E) :=
  match opened with
  | inl err => Some (0, Some err)
  | inr reads => lineCounter_loop reads 0
  end.


(** *** The scan loop of [loadConfig] *)

(** What the loop has built up: the calls [store.Add(sig, uint64(id))] made
    so far, the items collected for the vantage-point tree, and the counters
    [lines] and [signatures]. *)
Record load_state : Type := mk_load_state {
  ld_adds : list (Z * Z);
  ld_items : list (Z * Z);
  ld_lines : Z;
  ld_signatures : Z
}.

(** [sig % uint64(totalMachines) == uint64(myNumber)]; the remainder by zero
    is a run-time panic. *)
Definition on_this_machine (sig totalMachines myNumber : Z) : outcome bool :=
  if U64.wrap totalMachines =? 0 then Panics
  else Returns (sig mod U64.wrap totalMachines =? U64.wrap myNumber).

Section loadConfig.
(** [strings.Fields], [strconv.Atoi] and [strconv.ParseUint(_, 16, 64)] of
    Go's library, [None] for a parse error. *)
Context (Fields : String.string -> list String.string).
Context (Atoi : String.string -> option Z).
Context (ParseUint16 : String.string -> option Z).
Context (useStore useVPTree : bool) (totalMachines myNumber : Z).

(** One turn of the loop, on the line [text]. Indexing [fields] outside its
    length panics; a parse error logs and goes on to the next line without
    counting this one. *)
Definition loadConfig_line (st : load_state) (text : String.string) : outcome load_state :=
  let fields := Fields text in
  match fields !! 0%nat with
  | None => Panics
  | Some f0 =>
      match Atoi f0 with
      | None => Returns st
      | Some id =>
          match fields !! 1%nat with
          | None => Panics
          | Some f1 =>
              match ParseUint16 f1 with
              | None => Returns st
              | Some sig =>
                  match on_this_machine sig totalMachines myNumber with
                  | Panics => Panics
                  | Returns true =>
                      Returns (mk_load_state
                        (if useStore then ld_adds st ++ [(sig, U64.wrap id)] else ld_adds st)
                        (if useVPTree then ld_items st ++ [(sig, U64.wrap id)] else ld_items st)
                        (Int.add (ld_lines st) 1)
                        (Int.add (ld_signatures st) 1))
                  | Returns false =>
                      Returns (mk_load_state (ld_adds st) (ld_items st)
                                 (Int.add (ld_lines st) 1) (ld_signatures st))
                  end
              end
          end
      end
  end.

(** The loop over the lines that the scanner yields. *)
Fixpoint loadConfig_scan (st : load_state) (texts : list String.string) : outcome load_state :=
  match texts with
  | [] => Returns st
  | text :: texts' =>
      match loadConfig_line st text with
      | Panics => Panics
      | Returns st' => loadConfig_scan st' texts'
      end
  end.

(** The pair that a line stands for, when both of its first two fields
    parse. *)
Definition parse_line (text : String.string) : option (Z * Z) :=
  match Fields text with
  | f0 :: f1 :: _ =>
      match Atoi f0, ParseUint16 f1 with
      | Some id, Some sig => Some (sig, U64.wrap id)
      | _, _ => None
      end
  | _ => None
  end.

(** The pairs of [texts] that belong to this machine. *)
Definition mine (texts : list String.string) : list (Z * Z) :=
  filter (fun p => p.1 mod U64.wrap totalMachines = U64.wrap myNumber)
         (omap parse_line texts).
End loadConfig.

(** * Properties *)

(** ** Bit counts over ranges and fields *)

Lemma count_bits_shift n : forall lo k z, 0 <= lo -> 0 <= k ->
  count_bits n (lo + k) z = count_bits n lo (z / 2 ^ k).
Proof.
  induction n as [|n IH]; intros lo k z Hlo Hk; simpl; [reflexivity|].
  rewrite Z.div_pow2_bits by lia. f_equal.
  replace (lo + k + 1) with ((lo + 1) + k) by lia. apply IH; lia.
Qed.

Lemma count_bits_app n m : forall lo z,
  count_bits (n + m) lo z = count_bits n lo z + count_bits m (lo + Z.of_nat n) z.
Proof.
  induction n as [|n IH]; intros lo z.
  - cbn [count_bits Nat.add]. replace (lo + Z.of_nat 0) with lo by lia. lia.
  - cbn [count_bits Nat.add]. rewrite IH. replace (lo + 1 + Z.of_nat n) with (lo + Z.of_nat (S n)) by lia. lia.
Qed.

Lemma count_bits_bounds n : forall lo z, 0 <= count_bits n lo z <= Z.of_nat n.
Proof.
  induction n as [|n IH]; intros lo z; cbn [count_bits]; [lia|].
  specialize (IH (lo + 1) z). destruct (Z.testbit z lo); simpl Z.b2z; lia.
Qed.

Lemma land_split k a b c d :
  0 <= k -> 0 <= a < 2 ^ k -> 0 <= c < 2 ^ k ->
  Z.land (a + 2 ^ k * b) (c + 2 ^ k * d) = Z.land a c + 2 ^ k * Z.land b d.
Proof.
  intros Hk Ha Hc.
  assert (Hp : 0 < 2 ^ k) by (apply Z.pow_pos_nonneg; lia).
  assert (Hdiv : forall u v, 0 <= u < 2 ^ k -> (u + 2 ^ k * v) / 2 ^ k = v).
  { intros u v Hu. rewrite Z.add_comm, Z.mul_comm, Z.div_add_l by lia.
    rewrite Z.div_small by lia. lia. }
  assert (Hmod : forall u v, 0 <= u < 2 ^ k -> (u + 2 ^ k * v) mod 2 ^ k = u).
  { intros u v Hu. rewrite Z.mul_comm, Z.mod_add by lia.
    apply Z.mod_small; lia. }
  set (X := a + 2 ^ k * b). set (Y := c + 2 ^ k * d).
  rewrite (Z.div_mod (Z.land X Y) (2 ^ k)) by lia.
  rewrite <- Z.shiftr_div_pow2, Z.shiftr_land, !Z.shiftr_div_pow2 by lia.
  rewrite <- (Z.land_ones (Z.land X Y)) by lia.
  replace (Z.land (Z.land X Y) (Z.ones k))
    with (Z.land (Z.land X (Z.ones k)) (Z.land Y (Z.ones k))).
  2:{ apply Z.bits_inj'. intros i Hi. rewrite !Z.land_spec.
      destruct (Z.testbit X i), (Z.testbit Y i), (Z.testbit (Z.ones k) i); reflexivity. }
  rewrite !Z.land_ones by lia. unfold X, Y.
  rewrite !Hdiv, !Hmod by lia. lia.
Qed.

Lemma land_mask_split k X c d :
  0 <= k -> 0 <= c < 2 ^ k ->
  Z.land X (c + 2 ^ k * d) = Z.land (X mod 2 ^ k) c + 2 ^ k * Z.land (X / 2 ^ k) d.
Proof.
  intros Hk Hc.
  assert (Hp : 0 < 2 ^ k) by (apply Z.pow_pos_nonneg; lia).
  rewrite (Z.div_mod X (2 ^ k)) at 1 by lia.
  rewrite (Z.add_comm (2 ^ k * _)).
  apply land_split; try lia. apply Z.mod_pos_bound; lia.
Qed.

Lemma count_bits_div_mod n : forall z,
  count_bits (S n) 0 z = z mod 2 + count_bits n 0 (z / 2).
Proof.
  intros z. cbn [count_bits]. rewrite Z.bit0_mod. f_equal.
  change (0 + 1) with (0 + 1). rewrite (count_bits_shift n 0 1) by lia.
  reflexivity.
Qed.

Lemma field_counts_nonneg w n : forall x, 0 <= field_counts w n x.
Proof.
  induction n as [|n IH]; intros x; cbn [field_counts]; [lia|].
  pose proof (count_bits_bounds w 0 x). specialize (IH (x / 2 ^ Z.of_nat w)).
  assert (0 < 2 ^ Z.of_nat w) by (apply Z.pow_pos_nonneg; lia). nia.
Qed.

Lemma field_counts_bound w n : forall x,
  Z.of_nat w < 2 ^ Z.of_nat w ->
  field_counts w n x < 2 ^ (Z.of_nat w * Z.of_nat n).
Proof.
  intros x Hw. revert x. induction n as [|n IH]; intros x; cbn [field_counts].
  - rewrite Z.mul_0_r. simpl. lia.
  - replace (Z.of_nat w * Z.of_nat (S n)) with (Z.of_nat w + Z.of_nat w * Z.of_nat n) by lia.
    rewrite Z.pow_add_r by lia.
    pose proof (count_bits_bounds w 0 x). specialize (IH (x / 2 ^ Z.of_nat w)).
    pose proof (field_counts_nonneg w n (x / 2 ^ Z.of_nat w)).
    nia.
Qed.

Lemma step1_fields n : forall x, 0 <= x < 2 ^ (2 * Z.of_nat n) ->
  x - Z.land (Z.shiftr x 1) (rep 2 1 n) = field_counts 2 n x.
Proof.
  induction n as [|n IH]; intros x Hx.
  - simpl in *. assert (x = 0) by lia. subst x. reflexivity.
  - cbn [rep field_counts].
    replace (2 * Z.of_nat (S n)) with (2 + 2 * Z.of_nat n) in Hx by lia.
    rewrite Z.pow_add_r in Hx by lia.
    change (2 ^ Z.of_nat 2) with 4. change (2 ^ 2) with 4 in *.
    rewrite <- (IH (x / 4)) by (split; [apply Z.div_pos; lia | apply Z.div_lt_upper_bound; lia]).
    change 4 with (2 ^ 2) at 1. rewrite land_mask_split by lia.
    change 1 with (Z.ones 1) at 2. rewrite Z.land_ones by lia.
    rewrite !Z.shiftr_div_pow2 by lia.
    change (count_bits 2 0 x) with (Z.b2z (Z.testbit x 0) + (Z.b2z (Z.testbit x 1) + 0)).
    rewrite !Z.testbit_spec' by lia.
    change (2 ^ 0) with 1. change (2 ^ 1) with 2. change (2 ^ 2) with 4.
    replace (x / 2 / 4) with (x / 4 / 2) by (rewrite !Z.div_div by lia; reflexivity).
    generalize (Z.land (x / 4 / 2) (rep 2 1 n)). intros L.
    Z.div_mod_to_equations. lia.
Qed.

Lemma field_counts_2_step n x :
  field_counts 2 (2 * S n) x =
  count_bits 2 0 x + 4 * (count_bits 2 0 (x / 4) + 4 * field_counts 2 (2 * n) (x / 16)).
Proof.
  replace (2 * S n)%nat with (S (S (2 * n))) by lia.
  cbn [field_counts]. change (2 ^ Z.of_nat 2) with 4.
  rewrite Z.div_div by lia. reflexivity.
Qed.

Lemma count_bits_double w x :
  count_bits (w + w) 0 x = count_bits w 0 x + count_bits w 0 (x / 2 ^ Z.of_nat w).
Proof.
  rewrite count_bits_app. f_equal.
  rewrite (count_bits_shift w 0 (Z.of_nat w)) by lia. reflexivity.
Qed.

Lemma step2_fields n : forall x,
  let y := field_counts 2 (2 * n) x in
  Z.land (Z.shiftr y 2) (rep 4 3 n) + Z.land y (rep 4 3 n) = field_counts 4 n x.
Proof.
  induction n as [|n IH]; intros x; [reflexivity|].
  cbv zeta in *. rewrite field_counts_2_step. cbn [rep field_counts].
  change (2 ^ Z.of_nat 4) with 16.
  rewrite <- (IH (x / 16)).
  change (count_bits 4 0 x) with (count_bits (2 + 2) 0 x).
  rewrite count_bits_double. change (2 ^ Z.of_nat 2) with 4.
  pose proof (count_bits_bounds 2 0 x) as H0.
  pose proof (count_bits_bounds 2 0 (x / 4)) as H1.
  pose proof (field_counts_nonneg 2 (2 * n) (x / 16)) as H2.
  change (Z.of_nat 2) with 2 in H0, H1.
  revert H0 H1 H2.
  generalize (count_bits 2 0 x) (count_bits 2 0 (x / 4)) (field_counts 2 (2 * n) (x / 16)).
  intros c0 c1 y' H0 H1 H2.
  change (2 ^ 4) with (2 ^ 4). rewrite !(land_mask_split 4) by lia.
  change 3 with (Z.ones 2). rewrite !Z.land_ones by lia.
  rewrite !Z.shiftr_div_pow2 by lia.
  change (2 ^ 2) with 4. change (2 ^ 4) with 16.
  replace ((c0 + 4 * (c1 + 4 * y')) / 4) with (c1 + 4 * y') by (Z.div_mod_to_equations; lia).
  replace ((c1 + 4 * y') / 16) with (y' / 4) by (Z.div_mod_to_equations; lia).
  replace ((c0 + 4 * (c1 + 4 * y')) / 16) with y' by (Z.div_mod_to_equations; lia).
  generalize (Z.land (y' / 4) (rep 4 (Z.ones 2) n)) (Z.land y' (rep 4 (Z.ones 2) n)).
  intros L1 L2. Z.div_mod_to_equations. lia.
Qed.

Lemma field_counts_4_step n x :
  field_counts 4 (2 * S n) x =
  count_bits 4 0 x + 16 * (count_bits 4 0 (x / 16) + 16 * field_counts 4 (2 * n) (x / 256)).
Proof.
  replace (2 * S n)%nat with (S (S (2 * n))) by lia.
  cbn [field_counts]. change (2 ^ Z.of_nat 4) with 16.
  rewrite Z.div_div by lia. reflexivity.
Qed.

Lemma field_counts_4_low m z : 0 <= field_counts 4 m z mod 16 <= 4.
Proof.
  destruct m as [|m]; cbn [field_counts]; [rewrite Z.mod_0_l by lia; lia|].
  change (2 ^ Z.of_nat 4) with 16.
  pose proof (count_bits_bounds 4 0 z) as Hc. change (Z.of_nat 4) with 4 in Hc.
  generalize dependent (count_bits 4 0 z). intros c Hc.
  generalize (field_counts 4 m (z / 16)). intros F.
  Z.div_mod_to_equations. lia.
Qed.

Lemma step3_fields n : forall x,
  let y := field_counts 4 (2 * n) x in
  Z.land (y + Z.shiftr y 4) (rep 8 15 n) = field_counts 8 n x.
Proof.
  induction n as [|n IH]; intros x; [reflexivity|].
  cbv zeta in *. rewrite field_counts_4_step. cbn [rep field_counts].
  change (2 ^ Z.of_nat 8) with 256.
  rewrite <- (IH (x / 256)).
  change (count_bits 8 0 x) with (count_bits (4 + 4) 0 x).
  rewrite count_bits_double. change (2 ^ Z.of_nat 4) with 16.
  pose proof (count_bits_bounds 4 0 x) as H0.
  pose proof (count_bits_bounds 4 0 (x / 16)) as H1.
  pose proof (field_counts_nonneg 4 (2 * n) (x / 256)) as H2.
  pose proof (field_counts_4_low (2 * n) (x / 256)) as H3.
  change (Z.of_nat 4) with 4 in H0, H1.
  revert H0 H1 H2 H3.
  generalize (count_bits 4 0 x) (count_bits 4 0 (x / 16)) (field_counts 4 (2 * n) (x / 256)).
  intros c0 c1 y' H0 H1 H2 H3.
  rewrite (land_mask_split 8) by lia.
  change 15 with (Z.ones 4). rewrite Z.land_ones by lia.
  rewrite !Z.shiftr_div_pow2 by lia.
  change (2 ^ 8) with 256. change (2 ^ 4) with 16.
  replace ((c0 + 16 * (c1 + 16 * y') + (c0 + 16 * (c1 + 16 * y')) / 16) / 256)
    with (y' + y' / 16) by (Z.div_mod_to_equations; lia).
  generalize (Z.land (y' + y' / 16) (rep 8 (Z.ones 4) n)).
  intros L. Z.div_mod_to_equations. lia.
Qed.

Lemma count_bits_field_total w n : forall x,
  count_bits (n * w) 0 x = field_total w n x.
Proof.
  induction n as [|n IH]; intros x; [reflexivity|].
  cbn [Nat.mul field_total]. rewrite count_bits_app, <- IH. f_equal.
  rewrite (count_bits_shift _ 0 (Z.of_nat w)) by lia. reflexivity.
Qed.

Lemma byte_sum_mul f0 f1 f2 f3 f4 f5 f6 f7 :
  0 <= f0 <= 8 -> 0 <= f1 <= 8 -> 0 <= f2 <= 8 -> 0 <= f3 <= 8 ->
  0 <= f4 <= 8 -> 0 <= f5 <= 8 -> 0 <= f6 <= 8 -> 0 <= f7 <= 8 ->
  ((f0 + 256 * (f1 + 256 * (f2 + 256 * (f3 + 256 * (f4 + 256 * (f5 + 256 *
      (f6 + 256 * (f7 + 256 * 0)))))))) * 0x0101010101010101) mod 2 ^ 64 / 2 ^ 56
  = f0 + (f1 + (f2 + (f3 + (f4 + (f5 + (f6 + (f7 + 0))))))).
Proof.
  intros H0 H1 H2 H3 H4 H5 H6 H7.
  set (s0 := f0). set (s1 := s0 + f1). set (s2 := s1 + f2). set (s3 := s2 + f3).
  set (s4 := s3 + f4). set (s5 := s4 + f5). set (s6 := s5 + f6). set (s7 := s6 + f7).
  set (r := s0 + 256 * (s1 + 256 * (s2 + 256 * (s3 + 256 * (s4 + 256 * (s5 + 256 * s6)))))).
  set (q := f1 + 257 * f2 + 65793 * f3 + 16843009 * f4 + 4311810305 * f5
            + 1103823438081 * f6 + 282578800148737 * f7).
  match goal with |- ?X mod _ / _ = _ => assert (Hmod : X mod 2 ^ 64 = r + 2 ^ 56 * s7) end.
  { symmetry. apply Z.mod_unique with q.
    - left. subst r s0 s1 s2 s3 s4 s5 s6 s7.
      change (2 ^ 56) with 72057594037927936. change (2 ^ 64) with 18446744073709551616. lia.
    - subst q r s0 s1 s2 s3 s4 s5 s6 s7.
      change (2 ^ 56) with 72057594037927936. change (2 ^ 64) with 18446744073709551616. lia. }
  rewrite Hmod. transitivity s7; [|subst s0 s1 s2 s3 s4 s5 s6 s7; lia].
  symmetry. apply Z.div_unique with r; [|lia].
  left. subst r s0 s1 s2 s3 s4 s5 s6. change (2 ^ 56) with 72057594037927936. lia.
Qed.

Lemma step4_fields x :
  Z.shiftr ((field_counts 8 8 x * 0x0101010101010101) mod 2 ^ 64) 56 = count_bits 64 0 x.
Proof.
  change 64%nat with (8 * 8)%nat. rewrite count_bits_field_total.
  rewrite Z.shiftr_div_pow2 by lia.
  cbn [field_counts field_total]. change (2 ^ Z.of_nat 8) with 256.
  apply byte_sum_mul; apply (count_bits_bounds 8).
Qed.

Lemma field_counts_le_rep w n : forall x,
  field_counts w n x <= rep (Z.of_nat w) (Z.of_nat w) n.
Proof.
  induction n as [|n IH]; intros x; cbn [field_counts rep]; [lia|].
  pose proof (count_bits_bounds w 0 x). specialize (IH (x / 2 ^ Z.of_nat w)).
  assert (0 < 2 ^ Z.of_nat w) by (apply Z.pow_pos_nonneg; lia). nia.
Qed.

Lemma lxor_u64 a b : 0 <= a < 2 ^ 64 -> 0 <= b < 2 ^ 64 -> 0 <= Z.lxor a b < 2 ^ 64.
Proof.
  intros Ha Hb.
  rewrite <- (Z.mod_small a (2 ^ 64)), <- (Z.mod_small b (2 ^ 64)) by lia.
  replace (Z.lxor (a mod 2 ^ 64) (b mod 2 ^ 64)) with (Z.lxor a b mod 2 ^ 64).
  - apply Z.mod_pos_bound. lia.
  - apply Z.bits_inj'. intros i Hi.
    rewrite Z.lxor_spec, !Z.testbit_mod_pow2, Z.lxor_spec by lia.
    destruct (i <? 64); reflexivity.
Qed.

(** ** [distance] is the population count *)

Lemma wrap_small z : 0 <= z < 2 ^ 64 -> U64.wrap z = z.
Proof. intros H. unfold U64.wrap, U64.modulus. apply Z.mod_small. exact H. Qed.

Lemma swar_popcount z :
  0 <= z < 2 ^ 64 ->
  distance z 0 = popcount z.
Proof.
  intros Hz. unfold distance. rewrite Z.lxor_0_r. cbv zeta.
  unfold U64.sub, U64.add, U64.mul, U64.shr.
  change 0x5555555555555555 with (rep 2 1 32).
  change 0x3333333333333333 with (rep 4 3 16).
  change 0x0f0f0f0f0f0f0f0f with (rep 8 15 8).
  rewrite (step1_fields 32 z) by exact Hz.
  pose proof (field_counts_nonneg 2 32 z) as Hn1.
  pose proof (field_counts_bound 2 32 z ltac:(simpl; lia)) as Hb1.
  change (Z.of_nat 2 * Z.of_nat 32) with 64 in Hb1.
  rewrite (wrap_small (field_counts 2 32 z)) by lia.
  pose proof (step2_fields 16 z) as H2. cbv zeta in H2.
  change (2 * 16)%nat with 32%nat in H2. rewrite H2.
  pose proof (field_counts_nonneg 4 16 z) as Hn2.
  pose proof (field_counts_le_rep 4 16 z) as Hb2.
  change (rep (Z.of_nat 4) (Z.of_nat 4) 16) with 0x4444444444444444 in Hb2.
  rewrite (wrap_small (field_counts 4 16 z)) by lia.
  rewrite (wrap_small (_ + _)).
  2:{ rewrite Z.shiftr_div_pow2 by lia. change (2 ^ 4) with 16.
      change (2 ^ 64) with 18446744073709551616.
      generalize dependent (field_counts 4 16 z). intros. Z.div_mod_to_equations. lia. }
  pose proof (step3_fields 8 z) as H3. cbv zeta in H3.
  change (2 * 8)%nat with 16%nat in H3. rewrite H3.
  unfold U64.wrap, U64.modulus. apply step4_fields.
Qed.

Lemma count_bits_differing a b n : forall lo,
  0 <= lo ->
  count_bits n lo (Z.lxor a b)
  = Z.of_nat (length (filter (fun i => Z.testbit a i <> Z.testbit b i) (seqZ lo (Z.of_nat n)))).
Proof.
  induction n as [|n IH]; intros lo Hlo; [reflexivity|].
  cbn [count_bits]. rewrite seqZ_cons by lia.
  replace (Z.pred (Z.of_nat (S n))) with (Z.of_nat n) by lia.
  rewrite filter_cons, IH by lia. rewrite Z.lxor_spec.
  replace (Z.succ lo) with (lo + 1) by lia.
  destruct (decide (Z.testbit a lo <> Z.testbit b lo)) as [Hd|Hd].
  - cbn [length]. destruct (Z.testbit a lo), (Z.testbit b lo); simpl Z.b2z; try lia; congruence.
  - destruct (Z.testbit a lo), (Z.testbit b lo); simpl Z.b2z; try lia; exfalso; apply Hd; congruence.
Qed.

Lemma popcount_hamming a b : popcount (Z.lxor a b) = hamming a b.
Proof. unfold popcount, hamming, differing_positions. apply (count_bits_differing a b 64 0). lia. Qed.

Lemma distance_is_popcount a b :
  U64.is_u64 a -> U64.is_u64 b -> distance a b = popcount (Z.lxor a b).
Proof.
  intros Ha Hb. rewrite <- swar_popcount by (apply lxor_u64; assumption).
  unfold distance. rewrite Z.lxor_0_r. reflexivity.
Qed.

(** C6. For 64-bit words [a] and [b], [distance a b] is the population count
    of [a XOR b], which is the number of bit positions at which [a] and [b]
    differ; at the boundary, all ones against all zeros are 64 apart and a
    word is at distance 0 from itself. *)
Theorem distance_popcount a b :
  U64.is_u64 a -> U64.is_u64 b ->
  distance a b = popcount (Z.lxor a b) /\
  distance a b = hamming a b /\
  distance (2 ^ 64 - 1) 0 = 64 /\ distance 0 0 = 0.
Proof.
  intros Ha Hb.
  pose proof (distance_is_popcount a b Ha Hb) as Hd.
  split; [exact Hd|]. split; [rewrite Hd; apply popcount_hamming|].
  split; reflexivity.
Qed.

Lemma distance_popcount_witness :
  distance 0x00000000000000FF 0x00000000000000FB = popcount (Z.lxor 0xFF 0xFB) /\
  distance 0x00000000000000FF 0x00000000000000FB = hamming 0xFF 0xFB /\
  distance (2 ^ 64 - 1) 0 = 64 /\ distance 0 0 = 0.
Proof. apply distance_popcount; unfold U64.is_u64, U64.modulus; lia. Defined.

(** ** Bits of rotations and block swaps *)

Lemma u64_high_bits z n : U64.is_u64 z -> 64 <= n -> Z.testbit z n = false.
Proof.
  intros Hz Hn. unfold U64.is_u64, U64.modulus in Hz.
  rewrite <- (Z.mod_small z (2 ^ 64)) by lia.
  apply Z.mod_pow2_bits_high. lia.
Qed.

Lemma u64_from_bits z :
  (forall n, 64 <= n -> Z.testbit z n = false) -> U64.is_u64 z.
Proof.
  intros H. unfold U64.is_u64, U64.modulus.
  replace z with (z mod 2 ^ 64); [apply Z.mod_pos_bound; lia|].
  apply Z.bits_inj'. intros n Hn. rewrite Z.testbit_mod_pow2 by lia.
  destruct (Z.ltb_spec n 64); [reflexivity|]. rewrite H by lia. reflexivity.
Qed.

Lemma u64_ext a b :
  U64.is_u64 a -> U64.is_u64 b ->
  (forall n, 0 <= n < 64 -> Z.testbit a n = Z.testbit b n) -> a = b.
Proof.
  intros Ha Hb H. apply Z.bits_inj'. intros n Hn.
  destruct (Z.lt_ge_cases n 64); [apply H; lia|].
  rewrite !u64_high_bits by assumption. reflexivity.
Qed.

Lemma testbit_block w lo n :
  0 <= w -> 0 <= lo ->
  Z.testbit (bit_block w lo) n = (lo <=? n) && (n <? lo + w).
Proof.
  intros Hw Hlo. unfold bit_block. destruct (Z.lt_ge_cases n 0).
  - rewrite Z.testbit_neg_r by lia. symmetry. apply andb_false_intro1. apply Z.leb_gt. lia.
  - rewrite Z.shiftl_spec, Z.testbit_ones by lia.
    destruct (Z.leb_spec 0 (n - lo)), (Z.leb_spec lo n), (Z.ltb_spec (n - lo) w),
      (Z.ltb_spec n (lo + w)); simpl; try reflexivity; lia.
Qed.

Lemma testbit_shiftl_any a k m :
  Z.testbit (Z.shiftl a k) m = (0 <=? m) && Z.testbit a (m - k).
Proof.
  destruct (Z.leb_spec 0 m); [apply Z.shiftl_spec; assumption|].
  apply Z.testbit_neg_r. assumption.
Qed.

Lemma testbit_shiftr_any a k m :
  Z.testbit (Z.shiftr a k) m = (0 <=? m) && Z.testbit a (m + k).
Proof.
  destruct (Z.leb_spec 0 m); [apply Z.shiftr_spec; assumption|].
  apply Z.testbit_neg_r. assumption.
Qed.

Ltac decide_cmp :=
  repeat match goal with
  | |- context [?a <=? ?b] =>
      first [rewrite (proj2 (Z.leb_le a b)) by lia | rewrite (proj2 (Z.leb_gt a b)) by lia]
  | |- context [?a <? ?b] =>
      first [rewrite (proj2 (Z.ltb_lt a b)) by lia | rewrite (proj2 (Z.ltb_ge a b)) by lia]
  end.

Ltac bool_simpl :=
  cbn [andb orb negb];
  rewrite ?andb_true_r, ?andb_false_r, ?orb_false_r, ?orb_true_r, ?Z.testbit_neg_r by lia;
  cbn [andb orb negb].

Ltac bits :=
  rewrite ?Z.lor_spec, ?Z.land_spec, ?Z.ldiff_spec, ?Z.lxor_spec;
  rewrite ?Z.testbit_mod_pow2 by lia;
  rewrite ?Z.lor_spec, ?Z.land_spec, ?Z.ldiff_spec, ?Z.lxor_spec;
  rewrite ?testbit_shiftr_any, ?testbit_shiftl_any;
  rewrite ?Z.lor_spec, ?Z.land_spec, ?Z.ldiff_spec, ?Z.lxor_spec;
  rewrite ?testbit_shiftr_any, ?testbit_shiftl_any;
  rewrite ?testbit_block by lia.

(** Twelve-bit blocks and the sixteen-bit top of a word, as cases on a position. *)
Lemma position_cases n :
  0 <= n ->
  n < 12 \/ 12 <= n < 24 \/ 24 <= n < 36 \/ 36 <= n < 48 \/ 48 <= n < 64 \/ 64 <= n.
Proof. lia. Qed.

Ltac by_position n :=
  let H := fresh "Hpos" in
  pose proof (position_cases n ltac:(lia)) as H;
  destruct H as [H|[H|[H|[H|[H|H]]]]].

Lemma swap_12_24_bits x n :
  0 <= n ->
  Z.testbit (swap_12_24 x) n = (n <? 64) && Z.testbit x (swap_index 24 n).
Proof.
  intros Hn. unfold swap_12_24, swap_index, U64.shl, U64.shr, U64.wrap, U64.modulus.
  change 0xffff000000ffffff with (Z.lor (bit_block 24 0) (bit_block 16 48)).
  change 0x0000fff000000000 with (bit_block 12 36).
  change 0x0000000fff000000 with (bit_block 12 24).
  bits. by_position n; decide_cmp; bool_simpl; try reflexivity; f_equal; lia.
Qed.

Lemma swap_24_24_bits x n :
  0 <= n ->
  Z.testbit (swap_24_24 x) n = (n <? 64) && Z.testbit x (swap_index 12 n).
Proof.
  intros Hn. unfold swap_24_24, swap_index, U64.shl, U64.shr, U64.wrap, U64.modulus.
  change 0xffff000fff000fff
    with (Z.lor (Z.lor (bit_block 12 0) (bit_block 12 24)) (bit_block 16 48)).
  change 0x0000fff000000000 with (bit_block 12 36).
  change 0x0000000000fff000 with (bit_block 12 12).
  bits. by_position n; decide_cmp; bool_simpl; try reflexivity; f_equal; lia.
Qed.

Lemma swap_36_36_bits x n :
  0 <= n ->
  Z.testbit (swap_36_36 x) n = (n <? 64) && Z.testbit x (swap_index 0 n).
Proof.
  intros Hn. unfold swap_36_36, swap_index, U64.shl, U64.shr, U64.wrap, U64.modulus.
  change 0xffff000ffffff000 with (Z.lor (bit_block 24 12) (bit_block 16 48)).
  change 0x0000fff000000000 with (bit_block 12 36).
  change 0x0000000000000fff with (bit_block 12 0).
  bits. by_position n; decide_cmp; bool_simpl; try reflexivity; f_equal; lia.
Qed.

Lemma rotl16_bits x n :
  U64.is_u64 x -> 0 <= n ->
  Z.testbit (rotl16 x) n = (n <? 64) && Z.testbit x (rot_index n).
Proof.
  intros Hx Hn. unfold rotl16, rot_index, U64.shl, U64.shr, U64.wrap, U64.modulus.
  bits.
  assert (Hc : n < 16 \/ 16 <= n < 64 \/ 64 <= n) by lia.
  destruct Hc as [Hc|[Hc|Hc]]; decide_cmp; bool_simpl;
    rewrite ?(u64_high_bits x (n + (64 - 16))) by (assumption || lia); bool_simpl;
    try reflexivity; f_equal; lia.
Qed.

Lemma swap_blocks_bits lo x n :
  0 <= lo <= 24 -> 0 <= n ->
  Z.testbit (swap_blocks lo x) n = Z.testbit x (swap_index lo n).
Proof.
  intros Hlo Hn. unfold swap_blocks, block12, swap_index.
  change (Z.shiftl 0xfff 36) with (bit_block 12 36).
  change (Z.shiftl 0xfff lo) with (bit_block 12 lo).
  change 0xfff with (bit_block 12 0).
  bits.
  assert (Hc : n < lo \/ lo <= n < lo + 12 \/ lo + 12 <= n < 36 \/ 36 <= n < 48 \/ 48 <= n)
    by lia.
  destruct Hc as [Hc|[Hc|[Hc|[Hc|Hc]]]]; decide_cmp; bool_simpl;
    try reflexivity; f_equal; lia.
Qed.

Lemma ROTL64_bits x k n :
  U64.is_u64 x -> 0 <= k <= 64 -> 0 <= n ->
  Z.testbit (ROTL64 x k) n
  = (n <? 64) && Z.testbit x (if n <? k then n + 64 - k else n - k).
Proof.
  intros Hx Hk Hn. unfold ROTL64, U64.wrap, U64.modulus. bits.
  destruct (Z.lt_ge_cases n 64); decide_cmp; bool_simpl; [|reflexivity].
  destruct (Z.lt_ge_cases n k); decide_cmp; bool_simpl.
  - f_equal. lia.
  - rewrite (u64_high_bits x (n + (64 - k))) by (assumption || lia). bool_simpl. reflexivity.
Qed.

Lemma ROTR64_bits x k n :
  U64.is_u64 x -> 0 <= k <= 64 -> 0 <= n ->
  Z.testbit (ROTR64 x k) n
  = (n <? 64) && Z.testbit x (if n + k <? 64 then n + k else n + k - 64).
Proof.
  intros Hx Hk Hn. unfold ROTR64, U64.wrap, U64.modulus. bits.
  destruct (Z.lt_ge_cases n 64); decide_cmp; bool_simpl; [|reflexivity].
  destruct (Z.lt_ge_cases (n + k) 64); decide_cmp; bool_simpl.
  - rewrite (Z.testbit_neg_r x (n - (64 - k))) by lia. bool_simpl. reflexivity.
  - rewrite (u64_high_bits x (n + k)) by (assumption || lia). simpl. f_equal. lia.
Qed.

Lemma rot_index_cases n :
  (n < 16 /\ rot_index n = n + 48) \/ (16 <= n /\ rot_index n = n - 16).
Proof. unfold rot_index. destruct (Z.ltb_spec n 16); lia. Qed.

Lemma swap_index_cases lo n :
  (36 <= n < 48 /\ swap_index lo n = n - 36 + lo) \/
  (~ 36 <= n < 48 /\ lo <= n < lo + 12 /\ swap_index lo n = n - lo + 36) \/
  (~ 36 <= n < 48 /\ ~ lo <= n < lo + 12 /\ swap_index lo n = n).
Proof.
  unfold swap_index.
  destruct (Z.leb_spec 36 n), (Z.ltb_spec n 48), (Z.leb_spec lo n), (Z.ltb_spec n (lo + 12));
    cbn [andb]; lia.
Qed.

Lemma swap_index_involutive lo n :
  0 <= lo <= 24 -> swap_index lo (swap_index lo n) = n.
Proof.
  intros Hlo. pose proof (swap_index_cases lo n).
  pose proof (swap_index_cases lo (swap_index lo n)). lia.
Qed.

Lemma swap_index_range lo n :
  0 <= lo <= 24 -> 0 <= n < 64 -> 0 <= swap_index lo n < 64.
Proof. intros Hlo Hn. pose proof (swap_index_cases lo n). lia. Qed.

Lemma rot_index_range n : 0 <= n < 64 -> 0 <= rot_index n < 64.
Proof. intros Hn. pose proof (rot_index_cases n). lia. Qed.

Lemma swap_index_high lo n : 0 <= lo <= 24 -> 64 <= n -> swap_index lo n = n.
Proof. intros Hlo Hn. pose proof (swap_index_cases lo n). lia. Qed.

Lemma rotl16_u64 x : U64.is_u64 x -> U64.is_u64 (rotl16 x).
Proof.
  intros Hx. apply u64_from_bits. intros n Hn.
  rewrite rotl16_bits by (assumption || lia).
  rewrite (proj2 (Z.ltb_ge n 64)) by lia. reflexivity.
Qed.

Lemma iter_rotl16_u64 i x : U64.is_u64 x -> U64.is_u64 (Nat.iter i rotl16 x).
Proof. intros Hx. induction i as [|i IH]; [exact Hx|]. cbn [Nat.iter nat_rect]. apply rotl16_u64, IH. Qed.

Lemma code_variant_bits v x n :
  0 <= n ->
  U64.is_u64 x ->
  Z.testbit (code_variant v x) n = (n <? 64) && Z.testbit x (variant_index v n).
Proof.
  intros Hn Hx. destruct v as [|[|[|v]]]; cbn [code_variant variant_index].
  - destruct (Z.ltb_spec n 64); [reflexivity|]. apply u64_high_bits; assumption.
  - apply swap_12_24_bits; assumption.
  - apply swap_24_24_bits; assumption.
  - apply swap_36_36_bits; assumption.
Qed.

Lemma code_variant_u64 v x : U64.is_u64 x -> U64.is_u64 (code_variant v x).
Proof.
  intros Hx. apply u64_from_bits. intros n Hn.
  rewrite code_variant_bits by (assumption || lia).
  rewrite (proj2 (Z.ltb_ge n 64)) by lia. reflexivity.
Qed.

Lemma variant_bits v x n :
  0 <= n -> Z.testbit (variant v x) n = Z.testbit x (variant_index v n).
Proof.
  intros Hn. destruct v as [|[|[|v]]]; cbn [variant variant_index];
    [reflexivity | apply swap_blocks_bits; lia ..].
Qed.

Lemma variant_index_high v n : 64 <= n -> variant_index v n = n.
Proof.
  intros Hn. destruct v as [|[|[|v]]]; cbn [variant_index];
    [reflexivity | apply swap_index_high; lia ..].
Qed.

Lemma variant_index_range v n : 0 <= n < 64 -> 0 <= variant_index v n < 64.
Proof.
  intros Hn. destruct v as [|[|[|v]]]; cbn [variant_index];
    [lia | apply swap_index_range; lia ..].
Qed.

Lemma variant_index_involutive v n : variant_index v (variant_index v n) = n.
Proof.
  destruct v as [|[|[|v]]]; cbn [variant_index];
    [reflexivity | apply swap_index_involutive; lia ..].
Qed.

Lemma variant_u64 v x : U64.is_u64 x -> U64.is_u64 (variant v x).
Proof.
  intros Hx. apply u64_from_bits. intros n Hn.
  rewrite variant_bits, variant_index_high by lia. apply u64_high_bits; assumption.
Qed.

(** On 64-bit words the masks and shifts of the code are the block swaps. *)
Lemma code_variant_variant v x : U64.is_u64 x -> code_variant v x = variant v x.
Proof.
  intros Hx. apply u64_ext; [apply code_variant_u64 | apply variant_u64 |]; try assumption.
  intros n Hn. rewrite code_variant_bits, variant_bits by (assumption || lia).
  rewrite (proj2 (Z.ltb_lt n 64)) by lia. reflexivity.
Qed.

Lemma ROTL64_u64 x k : U64.is_u64 (ROTL64 x k).
Proof. unfold ROTL64, U64.wrap, U64.is_u64, U64.modulus. apply Z.mod_pos_bound. lia. Qed.

Lemma ROTR64_u64 x k : U64.is_u64 (ROTR64 x k).
Proof. unfold ROTR64, U64.wrap, U64.is_u64, U64.modulus. apply Z.mod_pos_bound. lia. Qed.

Lemma iter_rot_index_cases i n :
  (i < 4)%nat -> 0 <= n < 64 ->
  (n < 16 * Z.of_nat i /\ Nat.iter i rot_index n = n + 64 - 16 * Z.of_nat i) \/
  (16 * Z.of_nat i <= n /\ Nat.iter i rot_index n = n - 16 * Z.of_nat i).
Proof.
  intros Hi Hn. destruct i as [|[|[|[|i]]]]; try lia; cbn [Nat.iter nat_rect].
  - lia.
  - pose proof (rot_index_cases n). lia.
  - pose proof (rot_index_cases n). pose proof (rot_index_cases (rot_index n)). lia.
  - pose proof (rot_index_cases n). pose proof (rot_index_cases (rot_index n)).
    pose proof (rot_index_cases (rot_index (rot_index n))). lia.
Qed.

Lemma iter_rotl16_bits i x n :
  U64.is_u64 x -> 0 <= n < 64 ->
  Z.testbit (Nat.iter i rotl16 x) n = Z.testbit x (Nat.iter i rot_index n).
Proof.
  intros Hx. revert n. induction i as [|i IH]; intros n Hn; [reflexivity|].
  cbn [Nat.iter nat_rect]. rewrite rotl16_bits by (try apply iter_rotl16_u64; assumption || lia).
  rewrite (proj2 (Z.ltb_lt n 64)) by lia. cbn [andb].
  rewrite IH by (apply rot_index_range; lia).
  f_equal. clear. induction i as [|i IH]; [reflexivity|]. cbn [Nat.iter nat_rect]. rewrite <- IH. reflexivity.
Qed.

(** The rotation done in steps of 16 by the loop is the closed form. *)
Lemma iter_rotl16_ROTL64 i x :
  (i < 4)%nat -> U64.is_u64 x -> Nat.iter i rotl16 x = ROTL64 x (16 * Z.of_nat i).
Proof.
  intros Hi Hx. apply u64_ext; [apply iter_rotl16_u64; assumption | apply ROTL64_u64 |].
  intros n Hn. rewrite iter_rotl16_bits, ROTL64_bits by (assumption || lia).
  rewrite (proj2 (Z.ltb_lt n 64)) by lia. cbn [andb]. f_equal.
  pose proof (iter_rot_index_cases i n Hi Hn).
  destruct (Z.ltb_spec n (16 * Z.of_nat i)); lia.
Qed.

Lemma code_perm_perm t x : (t < 16)%nat -> U64.is_u64 x -> code_perm t x = perm t x.
Proof.
  intros Ht Hx. unfold code_perm, perm.
  assert (t / 4 < 4)%nat by (apply Nat.Div0.div_lt_upper_bound; lia).
  rewrite iter_rotl16_ROTL64 by assumption.
  apply code_variant_variant, ROTL64_u64.
Qed.

Lemma code_perm_u64 t x : U64.is_u64 x -> U64.is_u64 (code_perm t x).
Proof. intros Hx. apply code_variant_u64, iter_rotl16_u64, Hx. Qed.

Lemma code_perm_bits t x n :
  U64.is_u64 x -> 0 <= n < 64 ->
  Z.testbit (code_perm t x) n = Z.testbit x (perm_index t n).
Proof.
  intros Hx Hn. unfold code_perm, perm_index.
  rewrite code_variant_bits by (try apply iter_rotl16_u64; assumption || lia).
  rewrite (proj2 (Z.ltb_lt n 64)) by lia. cbn [andb].
  apply iter_rotl16_bits; [assumption | apply variant_index_range; lia].
Qed.

(** ** The permutations are bijections *)

Lemma variant_involutive v z : variant v (variant v z) = z.
Proof.
  apply Z.bits_inj'. intros n Hn.
  rewrite !variant_bits by (lia || (pose proof (variant_index_range v n); destruct (Z.lt_ge_cases n 64); [lia | rewrite variant_index_high; lia])).
  rewrite variant_index_involutive. reflexivity.
Qed.

Lemma ROTR64_ROTL64 x k : U64.is_u64 x -> 0 <= k <= 64 -> ROTR64 (ROTL64 x k) k = x.
Proof.
  intros Hx Hk. apply u64_ext; [apply ROTR64_u64 | assumption |].
  intros n Hn. rewrite ROTR64_bits by (try apply ROTL64_u64; lia).
  rewrite ROTL64_bits by (assumption || destruct (Z.ltb_spec (n + k) 64); lia).
  rewrite (proj2 (Z.ltb_lt n 64)) by lia. cbn [andb].
  destruct (Z.ltb_spec (n + k) 64); decide_cmp; cbn [andb]; f_equal; lia.
Qed.

Lemma ROTL64_ROTR64 x k : U64.is_u64 x -> 0 <= k <= 64 -> ROTL64 (ROTR64 x k) k = x.
Proof.
  intros Hx Hk. apply u64_ext; [apply ROTL64_u64 | assumption |].
  intros n Hn. rewrite ROTL64_bits by (try apply ROTR64_u64; lia).
  rewrite ROTR64_bits by (assumption || destruct (Z.ltb_spec n k); lia).
  rewrite (proj2 (Z.ltb_lt n 64)) by lia. cbn [andb].
  destruct (Z.ltb_spec n k); decide_cmp; cbn [andb]; f_equal; lia.
Qed.

Lemma perm_u64 t x : U64.is_u64 (perm t x).
Proof. apply variant_u64, ROTL64_u64. Qed.

Lemma perm_inv_u64 t x : U64.is_u64 (perm_inv t x).
Proof. apply ROTR64_u64. Qed.

Lemma rotation_amount t : (t < 16)%nat -> 0 <= 16 * Z.of_nat (t / 4) <= 64.
Proof.
  intros Ht. assert (t / 4 < 4)%nat by (apply Nat.Div0.div_lt_upper_bound; lia). lia.
Qed.

Lemma perm_inv_perm t x : (t < 16)%nat -> U64.is_u64 x -> perm_inv t (perm t x) = x.
Proof.
  intros Ht Hx. unfold perm_inv, perm. rewrite variant_involutive.
  apply ROTR64_ROTL64; [assumption | apply rotation_amount, Ht].
Qed.

Lemma perm_perm_inv t y : (t < 16)%nat -> U64.is_u64 y -> perm t (perm_inv t y) = y.
Proof.
  intros Ht Hy. unfold perm_inv, perm.
  rewrite ROTL64_ROTR64 by (try apply variant_u64; try apply rotation_amount; assumption).
  apply variant_involutive.
Qed.

(** C9. For every table index [t] below 16, the permutation that [Add] and
    [Find] apply for table [t] maps 64-bit words to 64-bit words, is undone by
    [perm_inv t], is injective, and reaches every 64-bit word. *)
Theorem perm_bijective t :
  (t < 16)%nat ->
  (forall x, U64.is_u64 x ->
     U64.is_u64 (code_perm t x) /\ perm_inv t (code_perm t x) = x) /\
  (forall x y, U64.is_u64 x -> U64.is_u64 y -> code_perm t x = code_perm t y -> x = y) /\
  (forall y, U64.is_u64 y ->
     U64.is_u64 (perm_inv t y) /\ code_perm t (perm_inv t y) = y).
Proof.
  intros Ht. split; [|split].
  - intros x Hx. split; [apply code_perm_u64, Hx|].
    rewrite code_perm_perm by assumption. apply perm_inv_perm; assumption.
  - intros x y Hx Hy Heq.
    rewrite <- (perm_inv_perm t x), <- (perm_inv_perm t y) by assumption.
    rewrite <- !code_perm_perm by assumption. rewrite Heq. reflexivity.
  - intros y Hy. split; [apply perm_inv_u64|].
    rewrite code_perm_perm by (assumption || apply perm_inv_u64).
    apply perm_perm_inv; assumption.
Qed.

Lemma perm_bijective_witness :
  (forall x, U64.is_u64 x ->
     U64.is_u64 (code_perm 5 x) /\ perm_inv 5 (code_perm 5 x) = x) /\
  (forall x y, U64.is_u64 x -> U64.is_u64 y -> code_perm 5 x = code_perm 5 y -> x = y) /\
  (forall y, U64.is_u64 y ->
     U64.is_u64 (perm_inv 5 y) /\ code_perm 5 (perm_inv 5 y) = y).
Proof. apply (perm_bijective 5). lia. Defined.

(** ** What [Add] and [Find] do to the tables *)

Lemma new_Store_wf : wf_Store new_Store.
Proof. reflexivity. Qed.

Lemma Add_loop_tables sig id (tabs : list table) :
  length tabs = 16%nat ->
  Add_loop 4 0 sig id tabs = imap (fun t tb => tb ++ [mk_entry (code_perm t sig) id]) tabs.
Proof.
  intros Hlen.
  do 17 (destruct tabs as [|? tabs]; try discriminate Hlen).
  reflexivity.
Qed.

Lemma Add_tables s sig id t :
  wf_Store s -> (t < 16)%nat ->
  tables (Add s sig id) !!! t = tables s !!! t ++ [mk_entry (code_perm t sig) id].
Proof.
  intros Hwf Ht. unfold Add. cbn [tables]. rewrite Add_loop_tables by exact Hwf.
  apply list_lookup_total_correct. rewrite list_lookup_imap.
  unfold wf_Store in Hwf.
  destruct (lookup_lt_is_Some_2 (tables s) t ltac:(lia)) as [tb Htb].
  rewrite Htb. cbn. rewrite (list_lookup_total_correct _ _ _ Htb). reflexivity.
Qed.

Lemma Add_wf s sig id : wf_Store s -> wf_Store (Add s sig id).
Proof.
  intros Hwf. unfold wf_Store, Add. cbn [tables].
  rewrite Add_loop_tables by exact Hwf. rewrite length_imap. exact Hwf.
Qed.

Lemma build_snoc adds p : build (adds ++ [p]) = Add (build adds) p.1 p.2.
Proof. unfold build. rewrite foldl_app. reflexivity. Qed.

Lemma build_wf adds : wf_Store (build adds).
Proof.
  induction adds as [|p adds IH] using rev_ind; [apply new_Store_wf|].
  rewrite build_snoc. apply Add_wf, IH.
Qed.

Lemma build_tables adds t :
  (t < 16)%nat ->
  tables (build adds) !!! t = (fun p => mk_entry (code_perm t p.1) p.2) <$> adds.
Proof.
  intros Ht. induction adds as [|p adds IH] using rev_ind.
  - do 16 (destruct t as [|t]; [reflexivity|]). lia.
  - rewrite build_snoc, Add_tables by (apply build_wf || assumption).
    rewrite IH, fmap_app. reflexivity.
Qed.

Lemma Find_ids_tables s sig :
  Find_ids s sig
  = mjoin ((fun t => find (tables s !!! t) (code_perm t sig)) <$> seq 0 16).
Proof.
  unfold Find_ids. cbn [Find_loop seq fmap list_fmap mjoin list_join].
  rewrite app_nil_l, app_nil_r, <- !app_assoc. reflexivity.
Qed.

Lemma elem_of_Find_ids s sig id :
  id ∈ Find_ids s sig <->
  exists t, (t < 16)%nat /\ id ∈ find (tables s !!! t) (code_perm t sig).
Proof.
  rewrite Find_ids_tables, list_elem_of_join. split.
  - intros (l & Hid & Hl). apply list_elem_of_fmap in Hl as (t & -> & Ht).
    apply elem_of_seq in Ht. exists t. split; [lia | exact Hid].
  - intros (t & Ht & Hid). eexists. split; [exact Hid|].
    apply list_elem_of_fmap. exists t. split; [reflexivity|]. apply elem_of_seq. lia.
Qed.

Lemma elem_of_Find_returns s sig ids id :
  Find_returns s sig ids -> (id ∈ ids <-> id ∈ Find_ids s sig).
Proof.
  unfold Find_returns, Find_uniq. intros ->. rewrite elem_of_elements, elem_of_list_to_set.
  reflexivity.
Qed.

(** ** Binary search *)

Lemma Search_loop_spec fuel f : forall i j : nat,
  (i <= j)%nat -> (j - i <= fuel)%nat ->
  (i <= Search_loop fuel f i j <= j)%nat /\
  ((i < Search_loop fuel f i j)%nat -> f (Search_loop fuel f i j - 1)%nat = false) /\
  ((Search_loop fuel f i j < j)%nat -> f (Search_loop fuel f i j) = true).
Proof.
  induction fuel as [|fuel IH]; intros i j Hij Hfuel; cbn [Search_loop].
  - repeat split; lia.
  - destruct (Nat.ltb_spec i j) as [Hlt|Hge]; [|repeat split; lia].
    set (h := ((i + j) / 2)%nat).
    assert (Hh : (i <= h < j)%nat).
    { subst h. split; [apply Nat.div_le_lower_bound; lia | apply Nat.Div0.div_lt_upper_bound; lia]. }
    destruct (f h) eqn:Hfh; cbn [negb].
    + destruct (IH i h) as (Hr & Hlo & Hhi); [lia..|].
      split; [lia|]. split; [exact Hlo|]. intros Hrj.
      destruct (decide (Search_loop fuel f i h = h)) as [->|Hne]; [exact Hfh|].
      apply Hhi. lia.
    + destruct (IH (h + 1)%nat j) as (Hr & Hlo & Hhi); [lia..|].
      split; [lia|]. split; [|exact Hhi]. intros _.
      destruct (decide (Search_loop fuel f (h + 1) j = h + 1)%nat) as [Heq|Hne].
      * rewrite Heq. replace (h + 1 - 1)%nat with h by lia. exact Hfh.
      * apply Hlo. lia.
Qed.

Lemma Search_spec n f :
  (Search n f <= n)%nat /\
  ((0 < Search n f)%nat -> f (Search n f - 1)%nat = false) /\
  ((Search n f < n)%nat -> f (Search n f) = true).
Proof.
  unfold Search. destruct (Search_loop_spec n f 0 n) as (H1 & H2 & H3); [lia..|].
  repeat split; [lia | exact H2 | exact H3].
Qed.

#[global] Instance hash_le_trans : Transitive hash_le.
Proof. intros x y z. unfold hash_le. lia. Qed.

#[global] Instance hash_le_total : Total hash_le.
Proof. intros x y. unfold hash_le. lia. Qed.

Lemma StronglySorted_lookup (t : list entry) (i j : nat) ei ej :
  StronglySorted hash_le t -> (i <= j)%nat ->
  t !! i = Some ei -> t !! j = Some ej -> hash ei <= hash ej.
Proof.
  intros Hs. revert i j. induction Hs as [|e t Hs IH Hall]; intros i j Hij Hi Hj.
  - discriminate.
  - destruct i as [|i], j as [|j]; cbn in Hi, Hj; simplify_eq; try lia.
    + apply (proj1 (Forall_forall _ _) Hall ej). eapply list_elem_of_lookup_2, Hj.
    + eapply IH; [|eassumption..]. lia.
Qed.

Section first_index.
Context {A : Type} (P : A -> Prop) `{forall x, Decision (P x)}.

Lemma first_index_le (l : list A) : (first_index P l <= length l)%nat.
Proof. induction l as [|x l IH]; cbn; [lia|]. destruct (decide (P x)); cbn; lia. Qed.

Lemma first_index_before (l : list A) i x :
  (i < first_index P l)%nat -> l !! i = Some x -> ~ P x.
Proof.
  revert i. induction l as [|y l IH]; intros i Hi Hx; cbn in *; [lia|].
  destruct (decide (P y)); [lia|]. destruct i as [|i]; cbn in Hx; simplify_eq; [assumption|].
  apply (IH i); [lia | assumption].
Qed.

Lemma first_index_at (l : list A) x :
  l !! first_index P l = Some x -> P x.
Proof.
  induction l as [|y l IH]; cbn; [discriminate|].
  destruct (decide (P y)); cbn; [intros; simplify_eq; assumption | exact IH].
Qed.
End first_index.

(** On a table sorted by hash, the binary search of [find] returns the index
    of the first entry whose hash is at least the prefix. *)
Lemma Search_first_index (t : list entry) P :
  Sorted hash_le t ->
  Search (length t) (hash_ge t P) = first_index (fun e => P <= hash e) t.
Proof.
  intros Hs. apply Sorted_StronglySorted in Hs; [|apply _].
  destruct (Search_spec (length t) (hash_ge t P)) as (Hn & Hlo & Hhi).
  set (r := Search (length t) (hash_ge t P)) in *.
  pose proof (first_index_le (fun e => P <= hash e) t) as Hk.
  pose proof (first_index_before (fun e => P <= hash e) t) as Hbefore.
  pose proof (first_index_at (fun e => P <= hash e) t) as Hat.
  set (k := first_index (fun e => P <= hash e) t) in *.
  clearbody r k. unfold hash_ge in Hlo, Hhi.
  destruct (Nat.lt_trichotomy r k) as [Hlt|[Heq|Hgt]]; [|exact Heq|]; exfalso.
  - destruct (lookup_lt_is_Some_2 t r ltac:(lia)) as [e He].
    apply (Hbefore r e Hlt He). specialize (Hhi ltac:(lia)).
    rewrite (list_lookup_total_correct _ _ _ He) in Hhi. apply Z.leb_le, Hhi.
  - destruct (lookup_lt_is_Some_2 t k ltac:(lia)) as [ek Hek].
    destruct (lookup_lt_is_Some_2 t (r - 1) ltac:(lia)) as [er Her].
    pose proof (Hat ek Hek) as Hge. cbv beta in Hge.
    pose proof (StronglySorted_lookup t k (r - 1) ek er Hs ltac:(lia) Hek Her).
    specialize (Hlo ltac:(lia)).
    rewrite (list_lookup_total_correct _ _ _ Her) in Hlo. apply Z.leb_gt in Hlo. lia.
Qed.

(** ** [table.find] *)

Lemma find_scan_spec sig prefix rest : forall ids,
  find_scan sig prefix rest ids
  = ids ++ (docid <$> filter (fun e => distance (hash e) sig <= 3)
              (take_while (fun e => Z.land (hash e) mask = prefix) rest)).
Proof.
  induction rest as [|e rest IH]; intros ids; cbn [find_scan take_while].
  - cbn. rewrite app_nil_r. reflexivity.
  - destruct (Z.eqb_spec (Z.land (hash e) mask) prefix) as [Heq|Hne].
    + rewrite decide_True by exact Heq. rewrite IH, filter_cons.
      destruct (Z.leb_spec (distance (hash e) sig) 3).
      * rewrite decide_True by assumption. rewrite fmap_cons, <- app_assoc. reflexivity.
      * rewrite decide_False by lia. reflexivity.
    + rewrite decide_False by exact Hne. cbn. rewrite app_nil_r. reflexivity.
Qed.

Lemma find_find_spec (t : list entry) q : Sorted hash_le t -> find t q = find_spec t q.
Proof.
  intros Hs. unfold find, find_spec. cbv zeta.
  rewrite Search_first_index by exact Hs. rewrite find_scan_spec. reflexivity.
Qed.

(** The masked hash is the hash with its low 36 bits cleared. *)
Lemma land_mask h : U64.is_u64 h -> Z.land h mask = 2 ^ 36 * (h / 2 ^ 36).
Proof.
  unfold U64.is_u64, U64.modulus. intros Hh.
  change mask with (0 + 2 ^ 36 * Z.ones 28).
  rewrite land_mask_split by lia. rewrite Z.land_0_r, Z.land_ones by lia.
  rewrite (Z.mod_small (h / 2 ^ 36)); [lia|].
  split; [apply Z.div_pos; lia|]. apply Z.div_lt_upper_bound; [lia|].
  change (2 ^ 36 * 2 ^ 28) with (2 ^ 64). lia.
Qed.

Lemma land_mask_any q : exists c, Z.land q mask = 2 ^ 36 * c.
Proof.
  change mask with (0 + 2 ^ 36 * Z.ones 28).
  rewrite land_mask_split by lia. rewrite Z.land_0_r. eexists. rewrite Z.add_0_l. reflexivity.
Qed.

(** An entry shares the prefix of [q] exactly when its hash lies in the window
    of [2^36] hashes that starts at the prefix. *)
Lemma prefix_window h q :
  U64.is_u64 h ->
  Z.land h mask = Z.land q mask <-> Z.land q mask <= h < Z.land q mask + 2 ^ 36.
Proof.
  intros Hh. rewrite land_mask by exact Hh.
  destruct (land_mask_any q) as [c ->].
  change (2 ^ 36) with 68719476736. Z.div_mod_to_equations. lia.
Qed.

Lemma filter_none {A : Type} (Q : A -> Prop) `{forall x, Decision (Q x)} (l : list A) :
  Forall (fun x => ~ Q x) l -> filter Q l = [].
Proof.
  induction 1 as [|x l Hx Hl IH]; [reflexivity|].
  rewrite filter_cons, decide_False by exact Hx. exact IH.
Qed.

Section window.
Context (P W : Z) (ok : entry -> Prop) `{forall e, Decision (ok e)}.

Lemma take_while_filter_from (l : list entry) :
  StronglySorted hash_le l -> Forall (in_window P W ok) l -> Forall (fun e => P <= hash e) l ->
  take_while ok l = filter ok l.
Proof.
  induction 1 as [|e l Hs IH Hall]; intros Hwin Hge; [reflexivity|].
  apply Forall_cons in Hge as [He Hge]. apply Forall_cons in Hwin as [Hwe Hwin].
  cbn [take_while]. rewrite filter_cons.
  destruct (decide (ok e)) as [Hok|Hno]; [rewrite IH by assumption; reflexivity|].
  symmetry. apply filter_none.
  apply Forall_forall. intros e' He'.
  pose proof (proj1 (Forall_forall _ _) Hall e' He') as Hle.
  pose proof (proj1 (Forall_forall _ _) Hwin e' He') as Hw'.
  unfold hash_le in Hle. unfold in_window in Hwe, Hw'. rewrite Hw'. rewrite Hwe in Hno. lia.
Qed.

Lemma take_while_drop_first_index (l : list entry) :
  StronglySorted hash_le l -> Forall (in_window P W ok) l ->
  take_while ok (drop (first_index (fun e => P <= hash e) l) l) = filter ok l.
Proof.
  induction 1 as [|e l Hs IH Hall]; intros Hwin; [reflexivity|].
  pose proof Hwin as Hwin'. apply Forall_cons in Hwin' as [Hwe Hwl].
  cbn [first_index]. destruct (decide (P <= hash e)) as [Hge|Hlt].
  - cbn [drop]. apply take_while_filter_from; [constructor; assumption | exact Hwin |].
    constructor; [exact Hge|]. eapply Forall_impl; [exact Hall|].
    intros e' Hle. unfold hash_le in Hle. lia.
  - cbn [drop]. rewrite IH, filter_cons by exact Hwl.
    rewrite decide_False; [reflexivity|]. unfold in_window in Hwe. rewrite Hwe. lia.
Qed.
End window.

(** On a sorted table of 64-bit hashes, [find] returns the docids of all the
    entries that share the prefix of [q] and are within distance 3 of it, in
    the order of the table. *)
Lemma find_sorted (t : list entry) q :
  Sorted hash_le t -> Forall (fun e => U64.is_u64 (hash e)) t ->
  find t q
  = docid <$> filter (fun e => distance (hash e) q <= 3)
                (filter (fun e => Z.land (hash e) mask = Z.land q mask) t).
Proof.
  intros Hs Hu. rewrite find_find_spec by exact Hs. unfold find_spec. cbv zeta.
  do 2 f_equal. apply Sorted_StronglySorted in Hs; [|apply _].
  apply (take_while_drop_first_index (Z.land q mask) (2 ^ 36)); [exact Hs|].
  eapply Forall_impl; [exact Hu|]. intros e He. apply prefix_window, He.
Qed.

(** ** The permutations keep the Hamming distance *)

Lemma count_bits_ext n : forall lo lo' w z,
  (forall k, 0 <= k < Z.of_nat n -> Z.testbit w (lo + k) = Z.testbit z (lo' + k)) ->
  count_bits n lo w = count_bits n lo' z.
Proof.
  induction n as [|n IH]; intros lo lo' w z Hbits; [reflexivity|].
  cbn [count_bits]. f_equal.
  - f_equal. specialize (Hbits 0 ltac:(lia)). rewrite !Z.add_0_r in Hbits. exact Hbits.
  - apply IH. intros k Hk. specialize (Hbits (k + 1) ltac:(lia)).
    replace (lo + 1 + k) with (lo + (k + 1)) by lia.
    replace (lo' + 1 + k) with (lo' + (k + 1)) by lia. exact Hbits.
Qed.

Lemma count_bits_zero n : forall lo z k,
  count_bits n lo z = 0 -> lo <= k < lo + Z.of_nat n -> Z.testbit z k = false.
Proof.
  induction n as [|n IH]; intros lo z k Hz Hk; [lia|].
  cbn [count_bits] in Hz. pose proof (count_bits_bounds n (lo + 1) z).
  destruct (Z.testbit z lo) eqn:Hb; cbn [Z.b2z] in Hz; [lia|].
  destruct (decide (k = lo)) as [->|Hne]; [exact Hb|].
  apply (IH (lo + 1)); lia.
Qed.

Lemma popcount_blocks z :
  popcount z = count_bits 12 0 z + count_bits 12 12 z + count_bits 12 24 z
               + count_bits 12 36 z + count_bits 16 48 z.
Proof.
  unfold popcount. change 64%nat with (12 + (12 + (12 + (12 + 16))))%nat.
  rewrite !count_bits_app.
  change (0 + Z.of_nat 12 + Z.of_nat 12 + Z.of_nat 12 + Z.of_nat 12) with 48.
  change (0 + Z.of_nat 12 + Z.of_nat 12 + Z.of_nat 12) with 36.
  change (0 + Z.of_nat 12 + Z.of_nat 12) with 24.
  change (0 + Z.of_nat 12) with 12. lia.
Qed.

Lemma popcount_chunks z :
  popcount z = count_bits 16 0 z + count_bits 16 16 z + count_bits 16 32 z
               + count_bits 16 48 z.
Proof.
  unfold popcount. change 64%nat with (16 + (16 + (16 + 16)))%nat.
  rewrite !count_bits_app.
  change (0 + Z.of_nat 16 + Z.of_nat 16 + Z.of_nat 16) with 48.
  change (0 + Z.of_nat 16 + Z.of_nat 16) with 32.
  change (0 + Z.of_nat 16) with 16. lia.
Qed.

Lemma popcount_rot w z :
  (forall n, 0 <= n < 64 -> Z.testbit w n = Z.testbit z (rot_index n)) ->
  popcount w = popcount z.
Proof.
  intros Hbits. rewrite (popcount_chunks w), (popcount_chunks z).
  assert (Hc : forall lo lo', 0 <= lo -> lo + 16 <= 64 -> rot_index lo = lo' ->
            rot_index (lo + 15) = lo' + 15 -> count_bits 16 lo w = count_bits 16 lo' z).
  { intros lo lo' H0 H1 H2 H3. apply count_bits_ext. intros k Hk. rewrite Hbits by lia.
    f_equal. pose proof (rot_index_cases lo). pose proof (rot_index_cases (lo + 15)).
    pose proof (rot_index_cases (lo + k)). lia. }
  rewrite (Hc 0 48), (Hc 16 0), (Hc 32 16), (Hc 48 32) by (reflexivity || lia). lia.
Qed.

Lemma popcount_swap lo w z :
  lo = 0 \/ lo = 12 \/ lo = 24 ->
  (forall n, 0 <= n < 64 -> Z.testbit w n = Z.testbit z (swap_index lo n)) ->
  popcount w = popcount z.
Proof.
  intros Hlo Hbits. rewrite (popcount_blocks w), (popcount_blocks z).
  assert (Hc : forall (len : nat) b b', 0 <= b -> b + Z.of_nat len <= 64 ->
            (b = 0 \/ b = 12 \/ b = 24 \/ b = 36 \/ b = 48) -> (len <= 16)%nat ->
            (b = 48 \/ len = 12%nat) ->
            swap_index lo b = b' ->
            count_bits len b w = count_bits len b' z).
  { intros len b b' H0 H1 H2 H3 H4 H5. apply count_bits_ext. intros k Hk. rewrite Hbits by lia.
    f_equal. pose proof (swap_index_cases lo b). pose proof (swap_index_cases lo (b + k)). lia. }
  destruct Hlo as [-> | [-> | ->]].
  - rewrite (Hc 12%nat 0 36), (Hc 12%nat 12 12), (Hc 12%nat 24 24), (Hc 12%nat 36 0),
      (Hc 16%nat 48 48) by (reflexivity || lia). lia.
  - rewrite (Hc 12%nat 0 0), (Hc 12%nat 12 36), (Hc 12%nat 24 24), (Hc 12%nat 36 12),
      (Hc 16%nat 48 48) by (reflexivity || lia). lia.
  - rewrite (Hc 12%nat 0 0), (Hc 12%nat 12 12), (Hc 12%nat 24 36), (Hc 12%nat 36 24),
      (Hc 16%nat 48 48) by (reflexivity || lia). lia.
Qed.

Lemma popcount_rotl16 a b :
  U64.is_u64 a -> U64.is_u64 b ->
  popcount (Z.lxor (rotl16 a) (rotl16 b)) = popcount (Z.lxor a b).
Proof.
  intros Ha Hb. apply popcount_rot. intros n Hn.
  rewrite !Z.lxor_spec, !rotl16_bits by (assumption || lia).
  rewrite (proj2 (Z.ltb_lt n 64)) by lia. reflexivity.
Qed.

Lemma popcount_iter_rotl16 i a b :
  U64.is_u64 a -> U64.is_u64 b ->
  popcount (Z.lxor (Nat.iter i rotl16 a) (Nat.iter i rotl16 b)) = popcount (Z.lxor a b).
Proof.
  intros Ha Hb. induction i as [|i IH]; [reflexivity|]. cbn [Nat.iter nat_rect].
  change (nat_rect _ a (fun _ => rotl16) i) with (Nat.iter i rotl16 a).
  change (nat_rect _ b (fun _ => rotl16) i) with (Nat.iter i rotl16 b).
  rewrite popcount_rotl16 by (apply iter_rotl16_u64; assumption). exact IH.
Qed.

Lemma popcount_code_variant v a b :
  U64.is_u64 a -> U64.is_u64 b ->
  popcount (Z.lxor (code_variant v a) (code_variant v b)) = popcount (Z.lxor a b).
Proof.
  intros Ha Hb.
  assert (Hbits : forall n, 0 <= n < 64 ->
            Z.testbit (Z.lxor (code_variant v a) (code_variant v b)) n
            = Z.testbit (Z.lxor a b) (variant_index v n)).
  { intros n Hn. rewrite !Z.lxor_spec, !code_variant_bits by (assumption || lia).
    rewrite (proj2 (Z.ltb_lt n 64)) by lia. reflexivity. }
  destruct v as [|[|[|v]]]; cbn [variant_index] in Hbits.
  - reflexivity.
  - apply (popcount_swap 24); [lia | exact Hbits].
  - apply (popcount_swap 12); [lia | exact Hbits].
  - apply (popcount_swap 0); [lia | exact Hbits].
Qed.

Lemma popcount_code_perm t a b :
  U64.is_u64 a -> U64.is_u64 b ->
  popcount (Z.lxor (code_perm t a) (code_perm t b)) = popcount (Z.lxor a b).
Proof.
  intros Ha Hb. unfold code_perm.
  rewrite popcount_code_variant by (apply iter_rotl16_u64; assumption).
  apply popcount_iter_rotl16; assumption.
Qed.

(** The distance between two permuted words is the distance between the words. *)
Lemma distance_code_perm t a b :
  U64.is_u64 a -> U64.is_u64 b ->
  distance (code_perm t a) (code_perm t b) = distance a b.
Proof.
  intros Ha Hb. rewrite !distance_is_popcount by (try apply code_perm_u64; assumption).
  apply popcount_code_perm; assumption.
Qed.

(** ** One table always sees a common prefix *)

Lemma lxor_false_eq a b n : Z.testbit (Z.lxor a b) n = false -> Z.testbit a n = Z.testbit b n.
Proof. rewrite Z.lxor_spec. destruct (Z.testbit a n), (Z.testbit b n); (reflexivity || discriminate). Qed.

Lemma code_perm_split i v x :
  (v < 4)%nat -> code_perm (4 * i + v) x = code_variant v (Nat.iter i rotl16 x).
Proof.
  intros Hv. unfold code_perm.
  rewrite (Nat.add_comm (4 * i) v), (Nat.mul_comm 4 i).
  rewrite Nat.Div0.mod_add, Nat.div_add by lia.
  rewrite Nat.mod_small, Nat.div_small by exact Hv. reflexivity.
Qed.

(** The chunk that [i] rotations bring to the top 16 bits. *)
Lemma top_chunk_rotated i x y :
  (i < 4)%nat -> U64.is_u64 x -> U64.is_u64 y ->
  count_bits 16 48 (Z.lxor (Nat.iter i rotl16 x) (Nat.iter i rotl16 y))
  = count_bits 16 (48 - 16 * Z.of_nat i) (Z.lxor x y).
Proof.
  intros Hi Hx Hy. apply count_bits_ext. intros k Hk.
  rewrite !Z.lxor_spec, !iter_rotl16_bits by (assumption || lia).
  pose proof (iter_rot_index_cases i (48 + k) Hi ltac:(lia)) as Hc.
  replace (Nat.iter i rot_index (48 + k)) with (48 - 16 * Z.of_nat i + k) by lia.
  reflexivity.
Qed.

Lemma prefix_agree v a b :
  (v < 4)%nat -> U64.is_u64 a -> U64.is_u64 b ->
  count_bits 16 48 (Z.lxor a b) = 0 ->
  count_bits 12 (36 - 12 * Z.of_nat v) (Z.lxor a b) = 0 ->
  Z.land (code_variant v a) mask = Z.land (code_variant v b) mask.
Proof.
  intros Hv Ha Hb Htop Hblk. apply Z.bits_inj'. intros n Hn.
  rewrite !Z.land_spec. change mask with (bit_block 28 36). rewrite testbit_block by lia.
  destruct (Z.leb_spec 36 n); [|rewrite !andb_false_r; reflexivity].
  destruct (Z.ltb_spec n (36 + 28)); [|rewrite !andb_false_r; reflexivity].
  cbn [andb]. rewrite !andb_true_r.
  rewrite !code_variant_bits by (assumption || lia). f_equal.
  apply lxor_false_eq.
  destruct (Z.lt_ge_cases n 48).
  - apply (count_bits_zero 12 (36 - 12 * Z.of_nat v)); [exact Hblk|].
    destruct v as [|[|[|v]]]; cbn [variant_index]; try lia;
      match goal with |- context [swap_index ?lo n] => pose proof (swap_index_cases lo n) end; lia.
  - apply (count_bits_zero 16 48); [exact Htop|].
    destruct v as [|[|[|v]]]; cbn [variant_index]; try lia;
      match goal with |- context [swap_index ?lo n] => pose proof (swap_index_cases lo n) end; lia.
Qed.

Lemma coverage x y :
  U64.is_u64 x -> U64.is_u64 y -> popcount (Z.lxor x y) <= 3 ->
  exists t, (t < 16)%nat /\ Z.land (code_perm t x) mask = Z.land (code_perm t y) mask.
Proof.
  intros Hx Hy Hpop.
  assert (Hrot : exists i, (i < 4)%nat /\
            count_bits 16 48 (Z.lxor (Nat.iter i rotl16 x) (Nat.iter i rotl16 y)) = 0).
  { pose proof (popcount_chunks (Z.lxor x y)) as Hsum.
    pose proof (count_bits_bounds 16 0 (Z.lxor x y)).
    pose proof (count_bits_bounds 16 16 (Z.lxor x y)).
    pose proof (count_bits_bounds 16 32 (Z.lxor x y)).
    pose proof (count_bits_bounds 16 48 (Z.lxor x y)).
    pose proof (top_chunk_rotated 0 x y ltac:(lia) Hx Hy) as Ht0.
    pose proof (top_chunk_rotated 1 x y ltac:(lia) Hx Hy) as Ht1.
    pose proof (top_chunk_rotated 2 x y ltac:(lia) Hx Hy) as Ht2.
    pose proof (top_chunk_rotated 3 x y ltac:(lia) Hx Hy) as Ht3.
    change (48 - 16 * Z.of_nat 0) with 48 in Ht0. change (48 - 16 * Z.of_nat 1) with 32 in Ht1.
    change (48 - 16 * Z.of_nat 2) with 16 in Ht2. change (48 - 16 * Z.of_nat 3) with 0 in Ht3.
    destruct (decide (count_bits 16 48 (Z.lxor x y) = 0)); [exists 0%nat; split; [lia|congruence]|].
    destruct (decide (count_bits 16 32 (Z.lxor x y) = 0)); [exists 1%nat; split; [lia|congruence]|].
    destruct (decide (count_bits 16 16 (Z.lxor x y) = 0)); [exists 2%nat; split; [lia|congruence]|].
    exists 3%nat. split; [lia|]. rewrite Ht3. lia. }
  destruct Hrot as (i & Hi & Htop).
  set (a := Nat.iter i rotl16 x) in *. set (b := Nat.iter i rotl16 y) in *.
  assert (Ha : U64.is_u64 a) by (apply iter_rotl16_u64, Hx).
  assert (Hb : U64.is_u64 b) by (apply iter_rotl16_u64, Hy).
  assert (Hpop' : popcount (Z.lxor a b) <= 3)
    by (unfold a, b; rewrite popcount_iter_rotl16 by assumption; exact Hpop).
  assert (Hvar : exists v, (v < 4)%nat /\
            count_bits 12 (36 - 12 * Z.of_nat v) (Z.lxor a b) = 0).
  { rewrite popcount_blocks in Hpop'.
    pose proof (count_bits_bounds 12 0 (Z.lxor a b)).
    pose proof (count_bits_bounds 12 12 (Z.lxor a b)).
    pose proof (count_bits_bounds 12 24 (Z.lxor a b)).
    pose proof (count_bits_bounds 12 36 (Z.lxor a b)).
    destruct (decide (count_bits 12 36 (Z.lxor a b) = 0)); [exists 0%nat; split; [lia|assumption]|].
    destruct (decide (count_bits 12 24 (Z.lxor a b) = 0)); [exists 1%nat; split; [lia|assumption]|].
    destruct (decide (count_bits 12 12 (Z.lxor a b) = 0)); [exists 2%nat; split; [lia|assumption]|].
    exists 3%nat. split; [lia|]. change (36 - 12 * Z.of_nat 3) with 0. lia. }
  destruct Hvar as (v & Hv & Hblk).
  exists (4 * i + v)%nat. split; [lia|].
  rewrite !code_perm_split by exact Hv. apply prefix_agree; assumption.
Qed.

(** C2. For 64-bit words [x] and [y] that differ in at most three bits there
    is a table index [t] below 16 for which the permutation that [Add] and
    [Find] apply for table [t] maps [x] and [y] to words that agree under the
    prefix mask [0xFFFFFFF000000000]. *)
Theorem permutation_coverage x y :
  U64.is_u64 x -> U64.is_u64 y -> popcount (Z.lxor x y) <= 3 ->
  exists t, (t < 16)%nat /\
    Z.land (code_perm t x) 0xFFFFFFF000000000 = Z.land (code_perm t y) 0xFFFFFFF000000000.
Proof. exact (coverage x y). Qed.

Lemma permutation_coverage_witness :
  exists t, (t < 16)%nat /\
    Z.land (code_perm t 0xAAAAAAAAAAAAAAAA) 0xFFFFFFF000000000
    = Z.land (code_perm t 0xAAAAAAAAAAAAAAA1) 0xFFFFFFF000000000.
Proof.
  apply permutation_coverage; unfold U64.is_u64, U64.modulus; [lia | lia |].
  vm_compute. discriminate.
Defined.

(** ** [Finish] *)

Lemma Finish_Finishes s : Finishes s (Finish s).
Proof.
  unfold Finishes, Finish. cbn [tables]. apply Forall2_fmap_r, Forall_Forall2_diag.
  apply Forall_forall. intros t _. split.
  - apply merge_sort_Permutation.
  - apply Sorted_merge_sort. apply _.
Qed.

Lemma Finishes_wf s s' : Finishes s s' -> wf_Store s -> wf_Store s'.
Proof. unfold Finishes, wf_Store. intros H Hwf. rewrite <- (Forall2_length _ _ _ H). exact Hwf. Qed.

Lemma Finishes_lookup s s' t :
  Finishes s s' -> sorted_of (tables s !!! t) (tables s' !!! t).
Proof.
  unfold Finishes. intros H.
  destruct (tables s !! t) as [tb|] eqn:Hl.
  - destruct (Forall2_lookup_l _ _ _ _ _ H Hl) as (tb' & Hl' & Hs).
    rewrite (list_lookup_total_correct _ _ _ Hl), (list_lookup_total_correct _ _ _ Hl').
    exact Hs.
  - assert (Hl' : tables s' !! t = None).
    { apply lookup_ge_None. rewrite <- (Forall2_length _ _ _ H). apply lookup_ge_None, Hl. }
    rewrite !list_lookup_total_alt, Hl, Hl'. cbn. split; [reflexivity | constructor].
Qed.

Lemma Finish_wf s : wf_Store s -> wf_Store (Finish s).
Proof. apply Finishes_wf, Finish_Finishes. Qed.

(** ** What [find] returns, sorted table or not *)

Lemma elem_of_take_while {A : Type} (P : A -> Prop) `{forall x, Decision (P x)} (l : list A) x :
  x ∈ take_while P l -> x ∈ l /\ P x.
Proof.
  induction l as [|y l IH]; cbn [take_while]; [intros Hx; inversion Hx|].
  destruct (decide (P y)) as [Hy|Hy]; [|intros Hx; inversion Hx].
  intros Hx. apply elem_of_cons in Hx as [->|Hx].
  - split; [left | exact Hy].
  - destruct (IH Hx). split; [right; assumption | assumption].
Qed.

Lemma find_sound (t : list entry) q id :
  id ∈ find t q ->
  exists e, e ∈ t /\ docid e = id /\ distance (hash e) q <= 3
            /\ Z.land (hash e) mask = Z.land q mask.
Proof.
  unfold find. cbv zeta. rewrite find_scan_spec, app_nil_l.
  intros Hid. apply list_elem_of_fmap in Hid as (e & -> & He).
  apply list_elem_of_filter in He as [Hd He].
  apply elem_of_take_while in He as [He Hp].
  exists e. repeat split; try assumption.
  eapply elem_of_submseteq; [exact He | apply submseteq_drop].
Qed.

Lemma find_complete (t : list entry) q e :
  Sorted hash_le t -> Forall (fun e => U64.is_u64 (hash e)) t ->
  e ∈ t -> Z.land (hash e) mask = Z.land q mask -> distance (hash e) q <= 3 ->
  docid e ∈ find t q.
Proof.
  intros Hs Hu He Hp Hd. rewrite find_sorted by assumption.
  apply list_elem_of_fmap. exists e. split; [reflexivity|].
  apply list_elem_of_filter. split; [exact Hd|].
  apply list_elem_of_filter. split; [exact Hp | exact He].
Qed.

(** ** The store after [Add]s and [Finish] *)

Lemma built_table adds s' t :
  (t < 16)%nat -> Finishes (build adds) s' ->
  tables s' !!! t ≡ₚ (fun p => mk_entry (code_perm t p.1) p.2) <$> adds /\
  Sorted hash_le (tables s' !!! t).
Proof.
  intros Ht Hf. destruct (Finishes_lookup _ _ t Hf) as [Hp Hs].
  rewrite build_tables in Hp by exact Ht. split; assumption.
Qed.

Lemma built_table_u64 adds t :
  Forall (fun p => U64.is_u64 p.1) adds ->
  Forall (fun e => U64.is_u64 (hash e)) ((fun p => mk_entry (code_perm t p.1) p.2) <$> adds).
Proof.
  intros Hu. apply Forall_fmap. eapply Forall_impl; [exact Hu|].
  intros p Hp. cbn. apply code_perm_u64, Hp.
Qed.

Lemma recall adds s' sig id q :
  Forall (fun p => U64.is_u64 p.1) adds -> U64.is_u64 q ->
  Finishes (build adds) s' ->
  (sig, id) ∈ adds -> popcount (Z.lxor sig q) <= 3 ->
  id ∈ Find_ids s' q.
Proof.
  intros Hu Hq Hf Hin Hpop.
  assert (Hsig : U64.is_u64 sig) by exact (proj1 (Forall_forall _ _) Hu _ Hin).
  destruct (coverage sig q Hsig Hq Hpop) as (t & Ht & Hpre).
  destruct (built_table adds s' t Ht Hf) as [Hperm Hsorted].
  apply elem_of_Find_ids. exists t. split; [exact Ht|].
  change id with (docid (mk_entry (code_perm t sig) id)).
  apply find_complete.
  - exact Hsorted.
  - rewrite Hperm. apply built_table_u64, Hu.
  - rewrite Hperm. apply list_elem_of_fmap. exists (sig, id). split; [reflexivity | exact Hin].
  - exact Hpre.
  - cbn [hash]. rewrite distance_code_perm, distance_is_popcount by assumption. exact Hpop.
Qed.

Lemma precision adds s' q id :
  Forall (fun p => U64.is_u64 p.1) adds -> U64.is_u64 q ->
  (forall t, (t < 16)%nat ->
     tables s' !!! t ≡ₚ (fun p => mk_entry (code_perm t p.1) p.2) <$> adds) ->
  id ∈ Find_ids s' q ->
  exists sig, (sig, id) ∈ adds /\ popcount (Z.lxor sig q) <= 3.
Proof.
  intros Hu Hq Htab Hid.
  apply elem_of_Find_ids in Hid as (t & Ht & Hid).
  apply find_sound in Hid as (e & He & Hdoc & Hd & _).
  rewrite (Htab t Ht) in He.
  apply list_elem_of_fmap in He as ([sig id'] & -> & Hin).
  cbn in Hdoc, Hd. subst id'. exists sig. split; [exact Hin|].
  assert (Hsig : U64.is_u64 sig) by exact (proj1 (Forall_forall _ _) Hu _ Hin).
  rewrite distance_code_perm, distance_is_popcount in Hd by assumption. exact Hd.
Qed.

Lemma Find_returns_NoDup s q ids : Find_returns s q ids -> NoDup ids.
Proof. unfold Find_returns. intros ->. apply NoDup_elements. Qed.

Lemma Find_Find_returns s q : Find_returns s q (Find s q).
Proof. unfold Find_returns, Find. reflexivity. Qed.

(** * The claims about the store *)

(** C1. After any sequence of [Add]s followed by [Finish], every docid stored
    with a signature within three bits of the query [q] is in the collection
    that [Find q] returns, whatever order the sort left equal hashes in and
    whatever order the ids come back in. *)
Theorem recall_within_radius adds s' sig id q ids :
  Forall (fun p => U64.is_u64 p.1) adds -> U64.is_u64 q ->
  Finishes (build adds) s' ->
  (sig, id) ∈ adds -> popcount (Z.lxor sig q) <= 3 ->
  Find_returns s' q ids ->
  id ∈ ids.
Proof.
  intros Hu Hq Hf Hin Hpop Hret.
  apply (elem_of_Find_returns _ _ _ _ Hret). eapply recall; eassumption.
Qed.

Lemma recall_within_radius_witness :
  42 ∈ Find (Finish (build [(0x0F0F0F0F0F0F0F0F, 9); (0xAAAAAAAAAAAAAAAA, 42)]))
            0xAAAAAAAAAAAAAAA1.
Proof.
  apply (recall_within_radius
           [(0x0F0F0F0F0F0F0F0F, 9); (0xAAAAAAAAAAAAAAAA, 42)]
           (Finish (build [(0x0F0F0F0F0F0F0F0F, 9); (0xAAAAAAAAAAAAAAAA, 42)]))
           0xAAAAAAAAAAAAAAAA 42 0xAAAAAAAAAAAAAAA1).
  - repeat constructor; cbn; lia.
  - unfold U64.is_u64, U64.modulus. lia.
  - apply Finish_Finishes.
  - right. left.
  - vm_compute. discriminate.
  - apply Find_Find_returns.
Defined.

(** C3. After [Finish], every docid that [Find q] returns was added with some
    signature within three bits of [q]; when a docid was added with several
    signatures, at least one of them is that close. *)
Theorem no_false_acceptance adds s' q ids id :
  Forall (fun p => U64.is_u64 p.1) adds -> U64.is_u64 q ->
  Finishes (build adds) s' ->
  Find_returns s' q ids ->
  id ∈ ids ->
  exists sig, (sig, id) ∈ adds /\ popcount (Z.lxor sig q) <= 3.
Proof.
  intros Hu Hq Hf Hret Hid.
  apply (elem_of_Find_returns _ _ _ _ Hret) in Hid.
  eapply precision; try eassumption.
  intros t Ht. apply (built_table adds s' t Ht Hf).
Qed.

Lemma no_false_acceptance_witness :
  exists sig,
    (sig, 9) ∈ [(0x0F0F0F0F0F0F0F0F, 9); (0x0F0F0F0F0F0F0F0E, 9); (0xAAAAAAAAAAAAAAAA, 42)]
    /\ popcount (Z.lxor sig 0x0F0F0F0F0F0F0F0F) <= 3.
Proof.
  apply (no_false_acceptance
           [(0x0F0F0F0F0F0F0F0F, 9); (0x0F0F0F0F0F0F0F0E, 9); (0xAAAAAAAAAAAAAAAA, 42)]
           (Finish (build [(0x0F0F0F0F0F0F0F0F, 9); (0x0F0F0F0F0F0F0F0E, 9);
                           (0xAAAAAAAAAAAAAAAA, 42)]))
           0x0F0F0F0F0F0F0F0F
           (Find (Finish (build [(0x0F0F0F0F0F0F0F0F, 9); (0x0F0F0F0F0F0F0F0E, 9);
                                 (0xAAAAAAAAAAAAAAAA, 42)])) 0x0F0F0F0F0F0F0F0F)
           9).
  - repeat constructor; cbn; lia.
  - unfold U64.is_u64, U64.modulus. lia.
  - apply Finish_Finishes.
  - apply Find_Find_returns.
  - vm_compute. left.
Defined.

(** C4. For a store built by any sequence of [Add]s followed by [Finish], and
    any query, the collection that [Find] returns holds each docid at most
    once. *)
Theorem Find_deduplicates adds s' q ids :
  Finishes (build adds) s' -> Find_returns s' q ids -> NoDup ids.
Proof. intros _. apply Find_returns_NoDup. Qed.

Lemma Find_deduplicates_witness :
  NoDup (Find (Finish (build [(0x0F0F0F0F0F0F0F0F, 9); (0x0F0F0F0F0F0F0F0E, 9)]))
              0x0F0F0F0F0F0F0F0F).
Proof.
  apply (Find_deduplicates [(0x0F0F0F0F0F0F0F0F, 9); (0x0F0F0F0F0F0F0F0E, 9)]
           (Finish (build [(0x0F0F0F0F0F0F0F0F, 9); (0x0F0F0F0F0F0F0F0E, 9)]))
           0x0F0F0F0F0F0F0F0F).
  - apply Finish_Finishes.
  - apply Find_Find_returns.
Defined.

(** C5. On a table sorted ascending by hash, with [P = q & M] for the mask
    [M = 0xFFFFFFF000000000]: the binary search of [find] lands on the first
    entry with hash at least [P], and [find] returns, in scan order, the docids
    of the entries within distance 3 of [q] among the run of entries from
    there on whose masked hash is [P]. *)
Theorem find_algorithm (t : list entry) q :
  Sorted hash_le t ->
  let P := Z.land q 0xFFFFFFF000000000 in
  let i := Search (length t) (hash_ge t P) in
  i = first_index (fun e => P <= hash e) t /\
  find t q
  = docid <$> filter (fun e => distance (hash e) q <= 3)
                (take_while (fun e => Z.land (hash e) 0xFFFFFFF000000000 = P) (drop i t)) /\
  find t q = find_spec t q.
Proof.
  intros Hs P i. split; [apply Search_first_index, Hs|].
  split; [|apply find_find_spec, Hs].
  unfold find. cbv zeta. rewrite find_scan_spec. reflexivity.
Qed.

Lemma find_algorithm_witness :
  let t := [mk_entry 5 1; mk_entry 0x1000000000 2; mk_entry 0x1000000007 3;
            mk_entry 0x10000000FF 4; mk_entry 0x2000000000 5] in
  let P := Z.land 0x1000000001 0xFFFFFFF000000000 in
  let i := Search (length t) (hash_ge t P) in
  i = first_index (fun e => P <= hash e) t /\
  find t 0x1000000001
  = docid <$> filter (fun e => distance (hash e) 0x1000000001 <= 3)
                (take_while (fun e => Z.land (hash e) 0xFFFFFFF000000000 = P) (drop i t)) /\
  find t 0x1000000001 = find_spec t 0x1000000001.
Proof.
  apply (find_algorithm [mk_entry 5 1; mk_entry 0x1000000000 2; mk_entry 0x1000000007 3;
                         mk_entry 0x10000000FF 4; mk_entry 0x2000000000 5]).
  repeat constructor; unfold hash_le; cbn; lia.
Defined.

(** C7, as the code has it. [Store] carries no phase marker and neither [Add]
    nor [Find] can fail: [Add] after [Finish] returns a store in which every
    table has the new entry appended, and [Find] before [Finish] returns a
    list without duplicates in which every docid was added with a signature
    within three bits of the query. *)
Theorem no_phase_check adds sig id q :
  Forall (fun p => U64.is_u64 p.1) adds -> U64.is_u64 q ->
  (forall s', Finishes (build adds) s' ->
     exists s'', call_Add s' sig id = Returns s'' /\
       forall t, (t < 16)%nat ->
         tables s'' !!! t = tables s' !!! t ++ [mk_entry (code_perm t sig) id]) /\
  (exists ids, call_Find (build adds) q = Returns ids /\ NoDup ids /\
     forall id', id' ∈ ids ->
       exists sig', (sig', id') ∈ adds /\ popcount (Z.lxor sig' q) <= 3).
Proof.
  intros Hu Hq. split.
  - intros s' Hf. exists (Add s' sig id). split; [reflexivity|].
    intros t Ht. apply Add_tables; [|exact Ht].
    eapply Finishes_wf; [exact Hf | apply build_wf].
  - exists (Find (build adds) q). split; [reflexivity|].
    split; [apply (Find_returns_NoDup (build adds) q), Find_Find_returns|].
    intros id' Hid.
    apply (elem_of_Find_returns _ _ _ _ (Find_Find_returns (build adds) q)) in Hid.
    eapply precision; try eassumption.
    intros t Ht. rewrite build_tables by exact Ht. reflexivity.
Qed.

Lemma no_phase_check_witness :
  (forall s', Finishes (build [(5, 1)]) s' ->
     exists s'', call_Add s' 3 2 = Returns s'' /\
       forall t, (t < 16)%nat ->
         tables s'' !!! t = tables s' !!! t ++ [mk_entry (code_perm t 3) 2]) /\
  (exists ids, call_Find (build [(5, 1)]) 4 = Returns ids /\ NoDup ids /\
     forall id', id' ∈ ids ->
       exists sig', (sig', id') ∈ [(5, 1)] /\ popcount (Z.lxor sig' 4) <= 3).
Proof.
  apply (no_phase_check [(5, 1)] 3 2 4).
  - repeat constructor; cbn; lia.
  - unfold U64.is_u64, U64.modulus. lia.
Defined.

(** C7 as the claim has it fails: [Add] after [Finish] returns, leaving table 0
    out of order, and [Find] before [Finish] returns too, here missing docid 2
    although it is stored with the very signature that is asked for. *)
Lemma phase_violation_counterexample :
  call_Add (Finish (build [(5, 1)])) 3 2 <> Panics /\
  call_Find (build [(0xFFFFFFFFFFFFFFFF, 1); (0, 2)]) 0 <> Panics /\
  (exists s, call_Add (Finish (build [(5, 1)])) 3 2 = Returns s /\
             tables s !!! 0%nat = [mk_entry 5 1; mk_entry 3 2]) /\
  call_Find (build [(0xFFFFFFFFFFFFFFFF, 1); (0, 2)]) 0 = Returns [].
Proof.
  split; [discriminate|]. split; [discriminate|].
  split; [eexists; split; [reflexivity|] |]; vm_compute; reflexivity.
Qed.

(** C8. For [t = 4 * i + v] with [i] and [v] below 4 and a 64-bit word [x]:
    the hash that [Add] appends to table [t] is variant [v] of the closed-form
    rotation [ROTL64 x (16 * i)]; the rotation built up by the loop, 16 bits a
    turn, is that closed form; and [Find] probes every table with the query
    under the same permutation. *)
Theorem permutation_binding i v x :
  (i < 4)%nat -> (v < 4)%nat -> U64.is_u64 x ->
  Nat.iter i rotl16 x = ROTL64 x (16 * Z.of_nat i) /\
  code_variant v (Nat.iter i rotl16 x) = variant v (ROTL64 x (16 * Z.of_nat i)) /\
  (forall s id, wf_Store s ->
     tables (Add s x id) !!! (4 * i + v)%nat
     = tables s !!! (4 * i + v)%nat ++ [mk_entry (variant v (ROTL64 x (16 * Z.of_nat i))) id]) /\
  (forall s, Find_ids s x = mjoin ((fun t => find (tables s !!! t) (perm t x)) <$> seq 0 16)) /\
  perm (4 * i + v) x = variant v (ROTL64 x (16 * Z.of_nat i)).
Proof.
  intros Hi Hv Hx.
  assert (Hrot : Nat.iter i rotl16 x = ROTL64 x (16 * Z.of_nat i))
    by (apply iter_rotl16_ROTL64; assumption).
  assert (Hvar : code_variant v (Nat.iter i rotl16 x) = variant v (ROTL64 x (16 * Z.of_nat i))).
  { rewrite Hrot. apply code_variant_variant, ROTL64_u64. }
  split; [exact Hrot|]. split; [exact Hvar|]. split; [|split].
  - intros s id Hwf. rewrite Add_tables by (assumption || lia).
    rewrite code_perm_split by exact Hv. rewrite Hvar. reflexivity.
  - intros s. rewrite Find_ids_tables. f_equal.
    apply list_fmap_ext. intros k t Ht. apply lookup_seq in Ht as [-> Hk].
    rewrite code_perm_perm by (assumption || lia). reflexivity.
  - rewrite <- code_perm_perm by (assumption || lia).
    rewrite code_perm_split by exact Hv. exact Hvar.
Qed.

Lemma permutation_binding_witness :
  Nat.iter 2 rotl16 0x0123456789ABCDEF = ROTL64 0x0123456789ABCDEF (16 * Z.of_nat 2) /\
  code_variant 1 (Nat.iter 2 rotl16 0x0123456789ABCDEF)
  = variant 1 (ROTL64 0x0123456789ABCDEF (16 * Z.of_nat 2)) /\
  (forall s id, wf_Store s ->
     tables (Add s 0x0123456789ABCDEF id) !!! (4 * 2 + 1)%nat
     = tables s !!! (4 * 2 + 1)%nat
       ++ [mk_entry (variant 1 (ROTL64 0x0123456789ABCDEF (16 * Z.of_nat 2))) id]) /\
  (forall s, Find_ids s 0x0123456789ABCDEF
     = mjoin ((fun t => find (tables s !!! t) (perm t 0x0123456789ABCDEF)) <$> seq 0 16)) /\
  perm (4 * 2 + 1) 0x0123456789ABCDEF
  = variant 1 (ROTL64 0x0123456789ABCDEF (16 * Z.of_nat 2)).
Proof.
  apply (permutation_binding 2 1 0x0123456789ABCDEF); [lia | lia |].
  unfold U64.is_u64, U64.modulus. lia.
Defined.

(** C10. [Add] appends exactly one entry to each of the 16 tables, carrying
    the docid and the permuted hash of that table; so after [n] calls of [Add]
    every table has [n] entries, and [Finish] leaves every length as it
    was. [Find] only reads the store. *)
Theorem Add_appends_everywhere adds sig id t :
  (t < 16)%nat ->
  tables (Add (build adds) sig id) !!! t
  = tables (build adds) !!! t ++ [mk_entry (code_perm t sig) id] /\
  length (tables (Add (build adds) sig id)) = 16%nat /\
  length (tables (build adds) !!! t) = length adds /\
  (forall s', Finishes (build adds) s' ->
     length (tables s') = 16%nat /\ length (tables s' !!! t) = length adds).
Proof.
  intros Ht. split; [apply Add_tables; [apply build_wf | exact Ht]|].
  split; [apply Add_wf, build_wf|].
  assert (Hlen : length (tables (build adds) !!! t) = length adds)
    by (rewrite build_tables by exact Ht; apply length_fmap).
  split; [exact Hlen|].
  intros s' Hf. split; [apply (Finishes_wf _ _ Hf), build_wf|].
  destruct (Finishes_lookup _ _ t Hf) as [Hp _].
  rewrite (Permutation_length Hp). exact Hlen.
Qed.

Lemma Add_appends_everywhere_witness :
  tables (Add (build [(5, 1); (9, 2)]) 7 3) !!! 6%nat
  = tables (build [(5, 1); (9, 2)]) !!! 6%nat ++ [mk_entry (code_perm 6 7) 3] /\
  length (tables (Add (build [(5, 1); (9, 2)]) 7 3)) = 16%nat /\
  length (tables (build [(5, 1); (9, 2)]) !!! 6%nat) = length [(5, 1); (9, 2)] /\
  (forall s', Finishes (build [(5, 1); (9, 2)]) s' ->
     length (tables s') = 16%nat /\ length (tables s' !!! 6%nat) = length [(5, 1); (9, 2)]).
Proof. apply (Add_appends_everywhere [(5, 1); (9, 2)] 7 3 6). lia. Defined.

(** * Further properties of the code *)

(** ** [distance] is a metric on 64-bit words *)

Lemma popcount_bounds z : 0 <= popcount z <= 64.
Proof. apply (count_bits_bounds 64 0 z). Qed.

Lemma popcount_zero z : U64.is_u64 z -> popcount z = 0 -> z = 0.
Proof.
  intros Hz Hp. apply Z.bits_inj'. intros n Hn. rewrite Z.bits_0.
  destruct (Z.lt_ge_cases n 64); [|apply u64_high_bits; assumption].
  apply (count_bits_zero 64 0); [exact Hp | lia].
Qed.

Lemma count_bits_triangle n : forall lo a b c,
  count_bits n lo (Z.lxor a c)
  <= count_bits n lo (Z.lxor a b) + count_bits n lo (Z.lxor b c).
Proof.
  induction n as [|n IH]; intros lo a b c; cbn [count_bits]; [lia|].
  specialize (IH (lo + 1) a b c). rewrite !Z.lxor_spec.
  destruct (Z.testbit a lo), (Z.testbit b lo), (Z.testbit c lo); cbn [xorb Z.b2z]; lia.
Qed.

(** X1. On 64-bit words [distance] is symmetric, lies between 0 and 64, and
    is 0 exactly for equal words. *)
Theorem distance_metric a b :
  U64.is_u64 a -> U64.is_u64 b ->
  distance a b = distance b a /\
  0 <= distance a b <= 64 /\
  (distance a b = 0 <-> a = b).
Proof.
  intros Ha Hb. split; [|split].
  - unfold distance. rewrite (Z.lxor_comm a b). reflexivity.
  - rewrite distance_is_popcount by assumption. apply popcount_bounds.
  - rewrite distance_is_popcount by assumption. split.
    + intros Hp. apply Z.lxor_eq. apply popcount_zero; [apply lxor_u64; assumption | exact Hp].
    + intros ->. rewrite Z.lxor_nilpotent. reflexivity.
Qed.

Lemma distance_metric_witness :
  distance 0xFF 0xFB = distance 0xFB 0xFF /\
  0 <= distance 0xFF 0xFB <= 64 /\
  (distance 0xFF 0xFB = 0 <-> 0xFF = 0xFB).
Proof. apply distance_metric; unfold U64.is_u64, U64.modulus; lia. Defined.

(** X2. [distance] obeys the triangle inequality on 64-bit words. *)
Theorem distance_triangle a b c :
  U64.is_u64 a -> U64.is_u64 b -> U64.is_u64 c ->
  distance a c <= distance a b + distance b c.
Proof.
  intros Ha Hb Hc. rewrite !distance_is_popcount by assumption.
  apply count_bits_triangle.
Qed.

Lemma distance_triangle_witness :
  distance 0x0F 0xF0 <= distance 0x0F 0xFF + distance 0xFF 0xF0.
Proof. apply distance_triangle; unfold U64.is_u64, U64.modulus; lia. Defined.

(** ** The [sort.Interface] of a table *)

Lemma Swap_inv (t t' : list entry) i j :
  Swap t i j = Some t' ->
  exists ei ej, t !! i = Some ei /\ t !! j = Some ej /\ t' = <[j := ei]> (<[i := ej]> t).
Proof.
  unfold Swap. destruct (t !! i) as [ei|] eqn:Hi; [|discriminate].
  destruct (t !! j) as [ej|] eqn:Hj; [|discriminate].
  intros [= <-]. exists ei, ej. repeat split.
Qed.

(** X3. [Swap] on two indices of the table exchanges the two entries, leaves
    the others and the length alone, so the result is a reordering of the
    table; doing the same swap again restores the table; and [Swap] panics
    exactly when an index is outside the table. *)
Theorem Swap_exchanges (t : list entry) i j :
  (Swap t i j = None <-> ~ ((i < Len t)%nat /\ (j < Len t)%nat)) /\
  (forall t', Swap t i j = Some t' ->
     t' ≡ₚ t /\ Len t' = Len t /\
     t' !! i = t !! j /\ t' !! j = t !! i /\
     (forall k, k <> i -> k <> j -> t' !! k = t !! k) /\
     Swap t' i j = Some t).
Proof.
  split.
  - unfold Swap, Len. split.
    + intros Hn [Hi Hj].
      destruct (lookup_lt_is_Some_2 t i Hi) as [ei Hei].
      destruct (lookup_lt_is_Some_2 t j Hj) as [ej Hej].
      rewrite Hei, Hej in Hn. discriminate.
    + intros Hn. destruct (t !! i) as [ei|] eqn:Hi; [|reflexivity].
      destruct (t !! j) as [ej|] eqn:Hj; [|reflexivity].
      exfalso. apply Hn. split; eapply lookup_lt_Some; eassumption.
  - intros t' Hs. apply Swap_inv in Hs as (ei & ej & Hi & Hj & ->).
    pose proof (lookup_lt_Some _ _ _ Hi) as Hli.
    pose proof (lookup_lt_Some _ _ _ Hj) as Hlj.
    assert (Hj' : <[j:=ei]> (<[i:=ej]> t) !! j = Some ei)
      by (apply list_lookup_insert_eq; rewrite length_insert; exact Hlj).
    assert (Hi' : <[j:=ei]> (<[i:=ej]> t) !! i = Some ej).
    { destruct (decide (i = j)) as [->|Hne].
      - rewrite Hj'. congruence.
      - rewrite list_lookup_insert_ne by congruence. apply list_lookup_insert_eq. exact Hli. }
    split; [apply Permutation_insert_swap; assumption|].
    split; [unfold Len; rewrite !length_insert; reflexivity|].
    split; [congruence|]. split; [congruence|]. split.
    + intros k Hki Hkj. rewrite !list_lookup_insert_ne by congruence. reflexivity.
    + unfold Swap. rewrite Hi', Hj'. f_equal.
      apply list_eq. intros k.
      destruct (decide (k = j)) as [->|Hkj].
      * rewrite list_lookup_insert_eq by (rewrite !length_insert; exact Hlj). congruence.
      * rewrite list_lookup_insert_ne by congruence.
        destruct (decide (k = i)) as [->|Hki].
        -- rewrite list_lookup_insert_eq by (rewrite !length_insert; exact Hli). congruence.
        -- rewrite !list_lookup_insert_ne by congruence. reflexivity.
Qed.

(** X4. However many times [Swap] is called without a panic, the table that
    results is a reordering of the table at the start, of the same length:
    sorting through this interface cannot lose, add or change an entry. *)
Theorem Swaps_reorder calls : forall (t t' : list entry),
  Swaps t calls = Some t' -> t' ≡ₚ t /\ Len t' = Len t.
Proof.
  induction calls as [|[i j] calls IH]; intros t t' Hs; cbn [Swaps] in Hs.
  - injection Hs as <-. split; reflexivity.
  - destruct (Swap t i j) as [t1|] eqn:H1; [|discriminate].
    destruct (IH _ _ Hs) as [Hp Hl].
    apply Swap_inv in H1 as (ei & ej & Hi & Hj & ->).
    split.
    + rewrite Hp. apply Permutation_insert_swap; assumption.
    + rewrite Hl. unfold Len. rewrite !length_insert. reflexivity.
Qed.

Lemma Swaps_reorder_witness :
  [mk_entry 3 30; mk_entry 1 10; mk_entry 2 20] ≡ₚ [mk_entry 1 10; mk_entry 2 20; mk_entry 3 30]
  /\ Len [mk_entry 3 30; mk_entry 1 10; mk_entry 2 20]
     = Len [mk_entry 1 10; mk_entry 2 20; mk_entry 3 30].
Proof.
  apply (Swaps_reorder [(0, 1); (0, 2)]%nat
           [mk_entry 1 10; mk_entry 2 20; mk_entry 3 30]). reflexivity.
Defined.

(** X5. [Less] compares the hashes at two indices of the table and panics
    when an index is outside it; on the table's indices it is a strict weak
    order: irreflexive, transitive, and with a transitive "neither is less". *)
Theorem Less_strict_weak_order (t : list entry) :
  (forall i j, Less t i j = None <-> ~ ((i < Len t)%nat /\ (j < Len t)%nat)) /\
  (forall i, Less t i i <> Some true) /\
  (forall i j k, Less t i j = Some true -> Less t j k = Some true -> Less t i k = Some true) /\
  (forall i j k, Less t i j = Some false -> Less t j i = Some false ->
                 Less t j k = Some false -> Less t k j = Some false ->
                 Less t i k = Some false /\ Less t k i = Some false).
Proof.
  unfold Less, Len. split; [|split; [|split]].
  - intros i j. split.
    + intros Hn [Hi Hj].
      destruct (lookup_lt_is_Some_2 t i Hi) as [ei Hei].
      destruct (lookup_lt_is_Some_2 t j Hj) as [ej Hej].
      rewrite Hei, Hej in Hn. discriminate.
    + intros Hn. destruct (t !! i) as [ei|] eqn:Hi; [|reflexivity].
      destruct (t !! j) as [ej|] eqn:Hj; [|reflexivity].
      exfalso. apply Hn. split; eapply lookup_lt_Some; eassumption.
  - intros i. destruct (t !! i) as [ei|]; [|discriminate].
    rewrite Z.ltb_irrefl. discriminate.
  - intros i j k. destruct (t !! i) as [ei|], (t !! j) as [ej|], (t !! k) as [ek|];
      try discriminate. intros [= H1] [= H2]. f_equal.
    apply Z.ltb_lt in H1, H2. apply Z.ltb_lt. lia.
  - intros i j k. destruct (t !! i) as [ei|], (t !! j) as [ej|], (t !! k) as [ek|];
      try discriminate. intros [= H1] [= H2] [= H3] [= H4].
    apply Z.ltb_ge in H1, H2, H3, H4.
    split; f_equal; apply Z.ltb_ge; lia.
Qed.

Lemma Sorted_lookup_succ (t : list entry) :
  Sorted hash_le t <->
  forall i e1 e2, t !! i = Some e1 -> t !! S i = Some e2 -> hash e1 <= hash e2.
Proof.
  split.
  - intros Hs. induction Hs as [|e t Hs IH Hhd]; intros i e1 e2 H1 H2; [discriminate|].
    destruct i as [|i]; cbn in H1, H2.
    + simplify_eq. destruct Hhd as [|e' t' Hle]; [discriminate|].
      cbn in H2. simplify_eq. exact Hle.
    + eapply IH; eassumption.
  - induction t as [|e t IH]; intros H; [constructor|].
    constructor.
    + apply IH. intros i e1 e2 H1 H2. apply (H (S i) e1 e2); assumption.
    + destruct t as [|e' t]; constructor. apply (H 0%nat e e'); reflexivity.
Qed.

(** X6. The order [sort.Sort] leaves, no entry [Less] than its predecessor,
    is the ascending order of the hashes. *)
Theorem ascending_by_Less_Sorted (t : list entry) :
  ascending_by_Less t <-> Sorted hash_le t.
Proof.
  rewrite Sorted_lookup_succ. unfold ascending_by_Less, Less, Len. split.
  - intros H i e1 e2 H1 H2.
    specialize (H (S i) ltac:(pose proof (lookup_lt_Some _ _ _ H2); lia)).
    replace (S i - 1)%nat with i in H by lia. rewrite H1, H2 in H.
    injection H as H. apply Z.ltb_ge in H. exact H.
  - intros H i Hi.
    destruct (lookup_lt_is_Some_2 t i ltac:(lia)) as [e2 H2].
    destruct (lookup_lt_is_Some_2 t (i - 1) ltac:(lia)) as [e1 H1].
    rewrite H1, H2. f_equal. apply Z.ltb_ge.
    apply (H (i - 1)%nat e1 e2 H1). replace (S (i - 1)) with i by lia. exact H2.
Qed.

(** ** [find] on any table *)

Lemma take_while_sublist {A : Type} (P : A -> Prop) `{forall x, Decision (P x)} (l : list A) :
  take_while P l `sublist_of` l.
Proof.
  induction l as [|x l IH]; cbn [take_while]; [constructor|].
  destruct (decide (P x)); [apply sublist_skip, IH | apply sublist_nil_l].
Qed.

(** X7. On a table sorted by hash whose hashes are 64-bit words, [find]
    returns the docids of exactly the entries of the table that share the top
    28 bits of the query and are within distance 3 of it, in table order. *)
Theorem find_on_sorted (t : list entry) q :
  Sorted hash_le t -> Forall (fun e => U64.is_u64 (hash e)) t ->
  find t q
  = docid <$> filter (fun e => Z.land (hash e) 0xFFFFFFF000000000
                               = Z.land q 0xFFFFFFF000000000
                               /\ distance (hash e) q <= 3) t.
Proof.
  intros Hs Hu. rewrite find_sorted by assumption. f_equal.
  rewrite list_filter_filter. apply list_filter_iff. intros e. unfold mask. tauto.
Qed.

Lemma find_on_sorted_witness :
  find [mk_entry 5 1; mk_entry 0x1000000000 2; mk_entry 0x1000000007 3;
        mk_entry 0x10000000FF 4; mk_entry 0x2000000000 5] 0x1000000001
  = docid <$> filter (fun e => Z.land (hash e) 0xFFFFFFF000000000
                               = Z.land 0x1000000001 0xFFFFFFF000000000
                               /\ distance (hash e) 0x1000000001 <= 3)
                [mk_entry 5 1; mk_entry 0x1000000000 2; mk_entry 0x1000000007 3;
                 mk_entry 0x10000000FF 4; mk_entry 0x2000000000 5].
Proof.
  apply find_on_sorted.
  - repeat constructor; unfold hash_le; cbn; lia.
  - repeat constructor; cbn; lia.
Defined.

(** X8. Sorted or not, [find] returns the docids of a subsequence of the
    table, each of an entry that shares the masked prefix of the query and is
    within distance 3 of it: it makes up no docid and returns no more docids
    than the table has entries. *)
Theorem find_subsequence (t : list entry) q :
  exists es, es `sublist_of` t /\ find t q = docid <$> es /\
    Forall (fun e => Z.land (hash e) mask = Z.land q mask /\ distance (hash e) q <= 3) es /\
    (length (find t q) <= length t)%nat.
Proof.
  unfold find. cbv zeta. rewrite find_scan_spec, app_nil_l.
  set (i := Search (length t) (hash_ge t (Z.land q mask))).
  set (es := filter (fun e => distance (hash e) q <= 3)
               (take_while (fun e => Z.land (hash e) mask = Z.land q mask) (drop i t))).
  assert (Hsub : es `sublist_of` t).
  { unfold es. etrans; [apply sublist_filter|].
    etrans; [apply take_while_sublist | apply sublist_drop]. }
  exists es. split; [exact Hsub|]. split; [reflexivity|]. split.
  - apply Forall_forall. intros e He. unfold es in He.
    apply list_elem_of_filter in He as [Hd He].
    apply elem_of_take_while in He as [_ Hp]. split; assumption.
  - rewrite length_fmap. apply sublist_length, Hsub.
Qed.

(** ** Any interleaving of [Add] and [Finish] *)

Lemma holds_new : holds [] new_Store.
Proof.
  split; [apply new_Store_wf|]. intros t Ht.
  do 16 (destruct t as [|t]; [reflexivity|]). lia.
Qed.

Lemma holds_Add adds s sig id : holds adds s -> holds (adds ++ [(sig, id)]) (Add s sig id).
Proof.
  intros [Hwf Htab]. split; [apply Add_wf, Hwf|]. intros t Ht.
  rewrite Add_tables by assumption. unfold table_of. rewrite fmap_app.
  rewrite (Htab t Ht). reflexivity.
Qed.

Lemma holds_Finishes adds s s' : holds adds s -> Finishes s s' -> holds adds s'.
Proof.
  intros [Hwf Htab] Hf. split; [eapply Finishes_wf; eassumption|]. intros t Ht.
  destruct (Finishes_lookup _ _ t Hf) as [Hp _]. rewrite Hp. apply Htab, Ht.
Qed.

Lemma holds_runs ops : forall adds s s',
  holds adds s -> runs_from s ops s' -> holds (adds ++ adds_of ops) s'.
Proof.
  induction ops as [|[sig id|] ops IH]; intros adds s s' Hh Hr; cbn [runs_from adds_of] in *.
  - subst s'. rewrite app_nil_r. exact Hh.
  - replace (adds ++ (sig, id) :: adds_of ops) with ((adds ++ [(sig, id)]) ++ adds_of ops)
      by (rewrite <- app_assoc; reflexivity).
    eapply IH; [|exact Hr]. apply holds_Add, Hh.
  - destruct Hr as (s1 & Hf & Hr). eapply IH; [|exact Hr].
    eapply holds_Finishes; eassumption.
Qed.

Lemma runs_from_app ops1 : forall ops2 s s',
  runs_from s (ops1 ++ ops2) s' <-> exists s1, runs_from s ops1 s1 /\ runs_from s1 ops2 s'.
Proof.
  induction ops1 as [|[sig id|] ops1 IH]; intros ops2 s s'; cbn [app runs_from].
  - split; [intros H; exists s; split; [reflexivity | exact H]|].
    intros (s1 & -> & H). exact H.
  - apply IH.
  - split.
    + intros (s1 & Hf & Hr). apply IH in Hr as (s2 & H1 & H2).
      exists s2. split; [exists s1; split; assumption | exact H2].
    + intros (s2 & (s1 & Hf & H1) & H2). exists s1. split; [exact Hf|].
      apply IH. exists s2. split; assumption.
Qed.

(** A store that holds [adds] and has every table sorted. *)
Lemma finished_store ops s' :
  runs_from new_Store (ops ++ [OpFinish]) s' ->
  holds (adds_of ops) s' /\ forall t, Sorted hash_le (tables s' !!! t).
Proof.
  intros Hr. apply runs_from_app in Hr as (s1 & H1 & H2).
  cbn [runs_from] in H2. destruct H2 as (s2 & Hf & ->).
  pose proof (holds_runs ops [] new_Store s1 holds_new H1) as Hh. cbn [app] in Hh.
  split; [eapply holds_Finishes; eassumption|].
  intros t. apply (Finishes_lookup _ _ t Hf).
Qed.

Lemma holds_recall adds s sig id q :
  Forall (fun p => U64.is_u64 p.1) adds -> U64.is_u64 q ->
  holds adds s -> (forall t, Sorted hash_le (tables s !!! t)) ->
  (sig, id) ∈ adds -> popcount (Z.lxor sig q) <= 3 ->
  id ∈ Find_ids s q.
Proof.
  intros Hu Hq [_ Htab] Hsorted Hin Hpop.
  assert (Hsig : U64.is_u64 sig) by exact (proj1 (Forall_forall _ _) Hu _ Hin).
  destruct (coverage sig q Hsig Hq Hpop) as (t & Ht & Hpre).
  apply elem_of_Find_ids. exists t. split; [exact Ht|].
  change id with (docid (mk_entry (code_perm t sig) id)).
  apply find_complete.
  - apply Hsorted.
  - rewrite (Htab t Ht). apply built_table_u64, Hu.
  - rewrite (Htab t Ht). apply list_elem_of_fmap. exists (sig, id). split; [reflexivity | exact Hin].
  - exact Hpre.
  - cbn [hash]. rewrite distance_code_perm, distance_is_popcount by assumption. exact Hpop.
Qed.

Lemma finished_Find_ids ops s' q id :
  Forall (fun p => U64.is_u64 p.1) (adds_of ops) -> U64.is_u64 q ->
  runs_from new_Store (ops ++ [OpFinish]) s' ->
  id ∈ Find_ids s' q <->
  exists sig, (sig, id) ∈ adds_of ops /\ popcount (Z.lxor sig q) <= 3.
Proof.
  intros Hu Hq Hr. destruct (finished_store ops s' Hr) as [Hh Hsorted]. split.
  - intros Hid. eapply precision; try eassumption. apply Hh.
  - intros (sig & Hin & Hpop). eapply holds_recall; eassumption.
Qed.

(** X9. Whatever calls of [Add] and [Finish] came before, in whatever order,
    once a call of [Finish] is the last one, [Find q] returns exactly the
    docids added with a signature within three bits of [q]: a store may be
    added to and finished again. *)
Theorem Find_after_any_run ops s' q ids id :
  Forall (fun p => U64.is_u64 p.1) (adds_of ops) -> U64.is_u64 q ->
  runs_from new_Store (ops ++ [OpFinish]) s' ->
  Find_returns s' q ids ->
  id ∈ ids <-> exists sig, (sig, id) ∈ adds_of ops /\ popcount (Z.lxor sig q) <= 3.
Proof.
  intros Hu Hq Hr Hret. rewrite (elem_of_Find_returns _ _ _ _ Hret).
  apply finished_Find_ids; assumption.
Qed.

Lemma Find_after_any_run_witness :
  7 ∈ Find (Finish (Add (Finish (Add new_Store 0x00 1)) 0xFF 7)) 0xFB <->
  exists sig, (sig, 7) ∈ adds_of [OpAdd 0x00 1; OpFinish; OpAdd 0xFF 7]
              /\ popcount (Z.lxor sig 0xFB) <= 3.
Proof.
  apply (Find_after_any_run [OpAdd 0x00 1; OpFinish; OpAdd 0xFF 7]
           (Finish (Add (Finish (Add new_Store 0x00 1)) 0xFF 7)) 0xFB).
  - repeat constructor; cbn; lia.
  - unfold U64.is_u64, U64.modulus. lia.
  - cbn [app runs_from]. eexists. split; [apply Finish_Finishes|].
    eexists. split; [apply Finish_Finishes | reflexivity].
  - apply Find_Find_returns.
Defined.

(** X10. What [Find] returns does not depend on the order of the [Add]s, on
    extra calls of [Finish] in between, or on how the sort ordered equal
    hashes: two runs that add the same pairs and end in [Finish] give the same
    set of docids for every query. *)
Theorem Find_order_independent ops1 ops2 s1 s2 q :
  Forall (fun p => U64.is_u64 p.1) (adds_of ops1) -> U64.is_u64 q ->
  adds_of ops1 ≡ₚ adds_of ops2 ->
  runs_from new_Store (ops1 ++ [OpFinish]) s1 ->
  runs_from new_Store (ops2 ++ [OpFinish]) s2 ->
  Find_uniq s1 q = Find_uniq s2 q /\ Find s1 q = Find s2 q.
Proof.
  intros Hu Hq Hp H1 H2.
  assert (Heq : Find_uniq s1 q = Find_uniq s2 q).
  { apply set_eq. intros id. unfold Find_uniq. rewrite !elem_of_list_to_set.
    rewrite (finished_Find_ids ops1 s1 q id Hu Hq H1).
    rewrite (finished_Find_ids ops2 s2 q id) by (try rewrite <- Hp; assumption).
    split; intros (sig & Hin & Hpop); exists sig; (split; [|exact Hpop]).
    - rewrite <- Hp. exact Hin.
    - rewrite Hp. exact Hin. }
  split; [exact Heq|]. unfold Find. rewrite Heq. reflexivity.
Qed.

Lemma Find_order_independent_witness :
  Find_uniq (Finish (Add (Add new_Store 0x00 1) 0xFF 7)) 0x0F
  = Find_uniq (Finish (Add (Finish (Add new_Store 0xFF 7)) 0x00 1)) 0x0F /\
  Find (Finish (Add (Add new_Store 0x00 1) 0xFF 7)) 0x0F
  = Find (Finish (Add (Finish (Add new_Store 0xFF 7)) 0x00 1)) 0x0F.
Proof.
  apply (Find_order_independent [OpAdd 0x00 1; OpAdd 0xFF 7] [OpAdd 0xFF 7; OpFinish; OpAdd 0x00 1]).
  - repeat constructor; cbn; lia.
  - unfold U64.is_u64, U64.modulus. lia.
  - cbn [adds_of]. apply Permutation_swap.
  - cbn [app runs_from]. eexists. split; [apply Finish_Finishes | reflexivity].
  - cbn [app runs_from]. eexists. split; [apply Finish_Finishes|].
    eexists. split; [apply Finish_Finishes | reflexivity].
Defined.

Lemma Find_ids_docids adds s q id :
  holds adds s -> id ∈ Find_ids s q -> id ∈ (snd <$> adds).
Proof.
  intros [_ Htab] Hid. apply elem_of_Find_ids in Hid as (t & Ht & Hid).
  apply find_sound in Hid as (e & He & Hdoc & _).
  rewrite (Htab t Ht) in He. apply list_elem_of_fmap in He as (p & -> & Hin).
  cbn in Hdoc. subst id. apply list_elem_of_fmap. exists p. split; [reflexivity | exact Hin].
Qed.

Lemma Find_returns_bounded ops s q ids :
  runs_from new_Store ops s -> Find_returns s q ids ->
  ids ⊆ (snd <$> adds_of ops) /\ (length ids <= length (adds_of ops))%nat.
Proof.
  intros Hr Hret.
  pose proof (holds_runs ops [] new_Store s holds_new Hr) as Hh. cbn [app] in Hh.
  assert (Hsub : ids ⊆ (snd <$> adds_of ops)).
  { intros id Hid. apply (elem_of_Find_returns _ _ _ _ Hret) in Hid.
    eapply Find_ids_docids; eassumption. }
  split; [exact Hsub|].
  rewrite <- (length_fmap snd (adds_of ops)).
  apply submseteq_length, NoDup_submseteq; [eapply Find_returns_NoDup; eassumption | exact Hsub].
Qed.

(** X11. In any state of the store, finished or not, [Find] returns only
    docids that were added, each once, and so no more docids than there were
    calls of [Add]. *)
Theorem Find_bounded ops s q ids :
  runs_from new_Store ops s -> Find_returns s q ids ->
  NoDup ids /\ ids ⊆ (snd <$> adds_of ops) /\ (length ids <= length (adds_of ops))%nat.
Proof.
  intros Hr Hret. split; [eapply Find_returns_NoDup; eassumption|].
  eapply Find_returns_bounded; eassumption.
Qed.

Lemma Find_bounded_witness :
  NoDup (Find (Add (Add new_Store 0x0F 9) 0x0E 9) 0x0F) /\
  Find (Add (Add new_Store 0x0F 9) 0x0E 9) 0x0F ⊆ (snd <$> adds_of [OpAdd 0x0F 9; OpAdd 0x0E 9])
  /\ (length (Find (Add (Add new_Store 0x0F 9) 0x0E 9) 0x0F)
      <= length (adds_of [OpAdd 0x0F 9; OpAdd 0x0E 9]))%nat.
Proof.
  apply (Find_bounded [OpAdd 0x0F 9; OpAdd 0x0E 9] (Add (Add new_Store 0x0F 9) 0x0E 9) 0x0F).
  - reflexivity.
  - apply Find_Find_returns.
Defined.

(** X12. A store to which nothing was added answers every query with no
    docid, before [Finish] and after any number of calls of it. *)
Theorem Find_empty ops s q ids :
  adds_of ops = [] -> runs_from new_Store ops s -> Find_returns s q ids -> ids = [].
Proof.
  intros Hno Hr Hret. destruct (Find_returns_bounded ops s q ids Hr Hret) as [_ Hlen].
  rewrite Hno in Hlen. destruct ids; [reflexivity | cbn in Hlen; lia].
Qed.

Lemma Find_empty_witness : Find (Finish (Finish new_Store)) 0x0F = [].
Proof.
  apply (Find_empty [OpFinish; OpFinish] (Finish (Finish new_Store)) 0x0F).
  - reflexivity.
  - cbn [runs_from]. eexists. split; [apply Finish_Finishes|].
    eexists. split; [apply Finish_Finishes | reflexivity].
  - apply Find_Find_returns.
Defined.

(** ** The daemon [simd]: counting lines *)

Lemma Int_wrap_small z : - 2 ^ 63 <= z < 2 ^ 63 -> Int.wrap z = z.
Proof. intros H. unfold Int.wrap. rewrite Z.mod_small by lia. lia. Qed.

Lemma count_newlines_app d1 d2 :
  count_newlines (d1 ++ d2) = count_newlines d1 + count_newlines d2.
Proof. unfold count_newlines. rewrite filter_app, length_app. lia. Qed.

Lemma count_newlines_bounds d : 0 <= count_newlines d <= Z.of_nat (length d).
Proof. unfold count_newlines. pose proof (length_filter (fun b => b = 10) d). lia. Qed.

Lemma lineCounter_loop_chunks {E : Type} (chunks : list (list Z)) : forall last count,
  0 <= count ->
  count + Z.of_nat (length (mjoin chunks ++ last)) < 2 ^ 63 ->
  lineCounter_loop ((ReadOk <$> chunks) ++ [ReadEOF last]) count
  = Some (count + count_newlines (mjoin chunks ++ last), @None E).
Proof.
  induction chunks as [|c chunks IH]; intros last count H0 Hlen.
  - change (mjoin [] ++ last) with last in *.
    change (lineCounter_loop ((ReadOk <$> []) ++ [ReadEOF last]) count)
      with (Some (Int.add count (count_newlines last), @None E)).
    unfold Int.add. rewrite Int_wrap_small; [reflexivity|].
    pose proof (count_newlines_bounds last). lia.
  - change (mjoin (c :: chunks)) with (c ++ mjoin chunks) in *.
    rewrite <- app_assoc in *. rewrite length_app in Hlen.
    pose proof (count_newlines_bounds c).
    change (lineCounter_loop ((ReadOk <$> c :: chunks) ++ [ReadEOF last]) count)
      with (lineCounter_loop ((ReadOk <$> chunks) ++ [ReadEOF (E:=E) last])
              (Int.add count (count_newlines c))).
    unfold Int.add. rewrite Int_wrap_small by lia.
    rewrite IH by lia. rewrite (count_newlines_app c). f_equal. f_equal. lia.
Qed.

(** X13. When the reads of the file succeed up to [io.EOF], [lineCounter]
    returns the number of newline bytes in the file and no error, however the
    reads cut the file into pieces; a last line without a newline is not
    counted. *)
Theorem lineCounter_counts_newlines {E : Type} (chunks : list (list Z)) (last : list Z) :
  Z.of_nat (length (mjoin chunks ++ last)) < 2 ^ 63 ->
  lineCounter (inr ((ReadOk <$> chunks) ++ [ReadEOF last]))
  = Some (count_newlines (mjoin chunks ++ last), @None E).
Proof.
  intros Hlen. unfold lineCounter. rewrite lineCounter_loop_chunks by lia. reflexivity.
Qed.

Lemma lineCounter_counts_newlines_witness :
  lineCounter (inr ((ReadOk <$> [[49; 32; 97]; [10; 50]]) ++ [ReadEOF [32; 98; 10; 51]]))
  = Some (count_newlines (mjoin [[49; 32; 97]; [10; 50]] ++ [32; 98; 10; 51]), @None unit).
Proof. apply (lineCounter_counts_newlines (E := unit)). cbn. lia. Defined.

(** X14. When [os.Open] fails, [lineCounter] returns 0 and the error; when a
    read fails, it returns that error and the newlines counted in the reads
    before it, leaving out the bytes that came with the failing read. *)
Theorem lineCounter_errors {E : Type} (err : E) (chunks : list (list Z)) (data : list Z)
    (rest : list (read_result E)) :
  Z.of_nat (length (mjoin chunks)) < 2 ^ 63 ->
  lineCounter (inl err) = Some (0, Some err) /\
  lineCounter (inr ((ReadOk <$> chunks) ++ ReadErr data err :: rest))
  = Some (count_newlines (mjoin chunks), Some err).
Proof.
  intros Hlen. split; [reflexivity|]. unfold lineCounter.
  assert (Hgen : forall count, 0 <= count ->
            count + Z.of_nat (length (mjoin chunks)) < 2 ^ 63 ->
            lineCounter_loop ((ReadOk <$> chunks) ++ ReadErr data err :: rest) count
            = Some (count + count_newlines (mjoin chunks), Some err)).
  { clear Hlen. induction chunks as [|c chunks IH]; intros count H0 Hlen.
    - cbn. rewrite Z.add_0_r. reflexivity.
    - change (mjoin (c :: chunks)) with (c ++ mjoin chunks) in *.
      rewrite length_app in Hlen. pose proof (count_newlines_bounds c).
      change (lineCounter_loop ((ReadOk <$> c :: chunks) ++ ReadErr data err :: rest) count)
        with (lineCounter_loop ((ReadOk <$> chunks) ++ ReadErr data err :: rest)
                (Int.add count (count_newlines c))).
      unfold Int.add. rewrite Int_wrap_small by lia.
      rewrite IH by lia. rewrite (count_newlines_app c). f_equal. f_equal. lia. }
  rewrite Hgen by lia. reflexivity.
Qed.

Lemma lineCounter_errors_witness :
  lineCounter (inl tt) = Some (0, Some tt) /\
  lineCounter (inr ((ReadOk <$> [[49; 10]; [10; 50]]) ++ ReadErr [10; 10] tt :: []))
  = Some (count_newlines (mjoin [[49; 10]; [10; 50]]), Some tt).
Proof. apply (lineCounter_errors tt [[49; 10]; [10; 50]] [10; 10] []). cbn. lia. Defined.

(** ** The daemon [simd]: loading signatures *)

Section loadConfig_facts.
Context (Fields : String.string -> list String.string).
Context (Atoi : String.string -> option Z).
Context (ParseUint16 : String.string -> option Z).


Lemma loadConfig_line_cases useStore useVPTree total my st text st' :
  loadConfig_line Fields Atoi ParseUint16 useStore useVPTree total my st text = Returns st' ->
  match parse_line Fields Atoi ParseUint16 text with
  | None => st' = st
  | Some p =>
      U64.wrap total <> 0 /\
      if decide (p.1 mod U64.wrap total = U64.wrap my) then
        st' = mk_load_state
                (if useStore then ld_adds st ++ [p] else ld_adds st)
                (if useVPTree then ld_items st ++ [p] else ld_items st)
                (Int.add (ld_lines st) 1) (Int.add (ld_signatures st) 1)
      else
        st' = mk_load_state (ld_adds st) (ld_items st)
                (Int.add (ld_lines st) 1) (ld_signatures st)
  end.
Proof.
  unfold loadConfig_line, parse_line, on_this_machine. cbv zeta.
  destruct (Fields text) as [|f0 [|f1 fs]]; cbn [lookup list_lookup].
  - discriminate.
  - destruct (Atoi f0); [discriminate | intros [= <-]; reflexivity].
  - destruct (Atoi f0) as [id|]; [|intros [= <-]; reflexivity].
    destruct (ParseUint16 f1) as [sig|]; [|intros [= <-]; reflexivity].
    destruct (Z.eqb_spec (U64.wrap total) 0) as [|Hne]; [discriminate|].
    cbn [fst]. destruct (Z.eqb_spec (sig mod U64.wrap total) (U64.wrap my)) as [Heq|Hneq].
    + intros [= <-]. split; [exact Hne|]. rewrite decide_True by exact Heq. reflexivity.
    + intros [= <-]. split; [exact Hne|]. rewrite decide_False by exact Hneq. reflexivity.
Qed.

Lemma loadConfig_scan_adds useStore useVPTree total my texts : forall st st',
  loadConfig_scan Fields Atoi ParseUint16 useStore useVPTree total my st texts = Returns st' ->
  ld_adds st' = ld_adds st ++ (if useStore then mine Fields Atoi ParseUint16 total my texts else []) /\
  ld_items st' = ld_items st ++ (if useVPTree then mine Fields Atoi ParseUint16 total my texts else []).
Proof.
  induction texts as [|text texts IH]; intros st st' Hs; cbn [loadConfig_scan] in Hs.
  - injection Hs as <-. unfold mine. cbn. destruct useStore, useVPTree; rewrite !app_nil_r; split; reflexivity.
  - destruct (loadConfig_line Fields Atoi ParseUint16 useStore useVPTree total my st text) as [st1|] eqn:Hl; [|discriminate].
    apply loadConfig_line_cases in Hl. destruct (IH _ _ Hs) as [Ha Hi]. rewrite Ha, Hi.
    unfold mine in *. cbn [omap list_omap].
    change (list_omap _ _ ?f ?l) with (omap f l).
    destruct (parse_line Fields Atoi ParseUint16 text) as [p|].
    + destruct Hl as [_ Hl]. rewrite filter_cons.
      destruct (decide (p.1 mod U64.wrap total = U64.wrap my)); subst st1; cbn [ld_adds ld_items];
        destruct useStore, useVPTree; rewrite <- ?app_assoc; split; reflexivity.
    + subst st1. split; reflexivity.
Qed.

Lemma loadConfig_scan_counters useStore useVPTree total my texts : forall st st',
  loadConfig_scan Fields Atoi ParseUint16 useStore useVPTree total my st texts = Returns st' ->
  0 <= ld_signatures st <= ld_lines st ->
  ld_lines st + Z.of_nat (length texts) < 2 ^ 63 ->
  ld_lines st' = ld_lines st + Z.of_nat (length (omap (parse_line Fields Atoi ParseUint16) texts)) /\
  ld_signatures st' = ld_signatures st + Z.of_nat (length (mine Fields Atoi ParseUint16 total my texts)).
Proof.
  induction texts as [|text texts IH]; intros st st' Hs H0 Hlen; cbn [loadConfig_scan] in Hs.
  - injection Hs as <-. unfold mine. cbn. lia.
  - destruct (loadConfig_line Fields Atoi ParseUint16 useStore useVPTree total my st text) as [st1|] eqn:Hl; [|discriminate].
    apply loadConfig_line_cases in Hl. cbn [length] in Hlen.
    unfold mine in *. cbn [omap list_omap].
    change (list_omap _ _ ?f ?l) with (omap f l).
    destruct (parse_line Fields Atoi ParseUint16 text) as [p|].
    + destruct Hl as [_ Hl]. rewrite filter_cons.
      destruct (decide (p.1 mod U64.wrap total = U64.wrap my)); subst st1;
        (destruct (IH _ _ Hs) as [Hlines Hsigs];
         [cbn [ld_lines ld_signatures]; unfold Int.add; rewrite ?Int_wrap_small by lia; lia
         |cbn [ld_lines ld_signatures]; unfold Int.add; rewrite ?Int_wrap_small by lia; lia|]);
        rewrite Hlines, Hsigs; cbn [ld_lines ld_signatures length]; unfold Int.add;
        rewrite ?Int_wrap_small by lia; lia.
    + subst st1. destruct (IH _ _ Hs) as [Hlines Hsigs]; [lia | lia |].
      rewrite Hlines, Hsigs. lia.
Qed.

(** X15. When the scan of [loadConfig] gets through the lines without a
    panic, the calls of [store.Add] it made (with [useStore]) are, in the
    order of the input, the pairs of the lines whose two fields parse and
    whose signature has remainder [myNumber] by [totalMachines]; the items for
    the tree (with [useVPTree]) are the same pairs; [signatures] has counted
    those pairs and [lines] the lines that parse, not the ones skipped. *)
Theorem loadConfig_scan_result useStore useVPTree total my texts st' :
  loadConfig_scan Fields Atoi ParseUint16 useStore useVPTree total my (mk_load_state [] [] 0 0) texts = Returns st' ->
  Z.of_nat (length texts) < 2 ^ 63 ->
  ld_adds st' = (if useStore then mine Fields Atoi ParseUint16 total my texts else []) /\
  ld_items st' = (if useVPTree then mine Fields Atoi ParseUint16 total my texts else []) /\
  ld_lines st' = Z.of_nat (length (omap (parse_line Fields Atoi ParseUint16) texts)) /\
  ld_signatures st' = Z.of_nat (length (mine Fields Atoi ParseUint16 total my texts)).
Proof.
  intros Hs Hlen.
  destruct (loadConfig_scan_adds _ _ _ _ _ _ _ Hs) as [Ha Hi].
  destruct (loadConfig_scan_counters _ _ _ _ _ _ _ Hs) as [Hl Hg]; [cbn; lia..|].
  cbn in Ha, Hi, Hl, Hg. repeat split; assumption.
Qed.

(** X16. With [totalMachines] machines numbered from 0, every pair that
    parses belongs to exactly one machine. *)
Theorem machines_partition total texts p :
  0 < total < 2 ^ 63 ->
  p ∈ omap (parse_line Fields Atoi ParseUint16) texts ->
  exists my, 0 <= my < total /\ p ∈ mine Fields Atoi ParseUint16 total my texts /\
    forall my', 0 <= my' < total -> p ∈ mine Fields Atoi ParseUint16 total my' texts -> my' = my.
Proof.
  intros Ht Hp.
  assert (Hw : forall m, 0 <= m < total -> U64.wrap m = m).
  { intros m Hm. unfold U64.wrap, U64.modulus. apply Z.mod_small. lia. }
  assert (Hwt : U64.wrap total = total).
  { unfold U64.wrap, U64.modulus. apply Z.mod_small. lia. }
  pose proof (Z.mod_pos_bound p.1 total ltac:(lia)) as Hm.
  exists (p.1 mod total). split; [exact Hm|]. split.
  - unfold mine. apply list_elem_of_filter. split; [|exact Hp].
    rewrite Hwt, (Hw _ Hm). reflexivity.
  - intros my' Hmy' Hin. unfold mine in Hin. apply list_elem_of_filter in Hin as [Heq _].
    rewrite Hwt, (Hw _ Hmy') in Heq. congruence.
Qed.

End loadConfig_facts.

Lemma loadConfig_scan_result_witness :
  ld_adds (mk_load_state [(7, 5); (7, 5)] [] 2 2)
  = mine (fun s => [s; s]) (fun _ => Some 5) (fun _ => Some 7) 3 1
      [String.EmptyString; String.EmptyString] /\
  ld_items (mk_load_state [(7, 5); (7, 5)] [] 2 2) = [] /\
  ld_lines (mk_load_state [(7, 5); (7, 5)] [] 2 2)
  = Z.of_nat (length (omap (parse_line (fun s => [s; s]) (fun _ => Some 5) (fun _ => Some 7))
                        [String.EmptyString; String.EmptyString])) /\
  ld_signatures (mk_load_state [(7, 5); (7, 5)] [] 2 2)
  = Z.of_nat (length (mine (fun s => [s; s]) (fun _ => Some 5) (fun _ => Some 7) 3 1
                        [String.EmptyString; String.EmptyString])).
Proof.
  apply (loadConfig_scan_result (fun s => [s; s]) (fun _ => Some 5) (fun _ => Some 7)
           true false 3 1 [String.EmptyString; String.EmptyString]
           (mk_load_state [(7, 5); (7, 5)] [] 2 2)).
  - reflexivity.
  - cbn. lia.
Defined.

Lemma machines_partition_witness :
  exists my, 0 <= my < 3 /\
    (7, 5) ∈ mine (fun s => [s; s]) (fun _ => Some 5) (fun _ => Some 7) 3 my
               [String.EmptyString] /\
    forall my', 0 <= my' < 3 ->
      (7, 5) ∈ mine (fun s => [s; s]) (fun _ => Some 5) (fun _ => Some 7) 3 my'
                 [String.EmptyString] ->
      my' = my.
Proof.
  apply (machines_partition (fun s => [s; s]) (fun _ => Some 5) (fun _ => Some 7) 3
           [String.EmptyString] (7, 5)).
  - lia.
  - left.
Defined.
